(** * guardian-agent: the syscall filter of [libaba/hooks.cc]

    A shallow embedding of the interception layer: the operation encoders,
    the descriptor resolver [marshal_fds], the message framing
    ([create_raw_msg], [read_expected_msg], [read_expected_msg_with_fd]),
    the credential phase ([user_runtime_dir], [get_credential]) and the two
    entry points [hook] and [safe_hook].

    Target platform is the one the source is written for: x86-64 Linux
    ([SYS_open] exists, [long] is 64 bits, [int] is 32 bits, plain [char]
    is signed, the byte order is little-endian so [htonl] swaps). *)

From Stdlib Require Import ZArith String Ascii Bool Lia List.
From Stdlib Require Import Strings.Byte Numbers.DecimalString.
Import ListNotations.
Open Scope Z_scope.

Set Implicit Arguments.

(** ** Machine integers *)

(** [(int) x] for a [long] x: keep the low 32 bits, read as signed. *)
Definition to_int (z : Z) : Z := (z + 2 ^ 31) mod 2 ^ 32 - 2 ^ 31.

(** [(socklen_t) x], [(uint32_t) x]: keep the low 32 bits, unsigned. *)
Definition to_uint32 (z : Z) : Z := z mod 2 ^ 32.

(** [(size_t) x]: 64 bits, unsigned. *)
Definition to_size_t (z : Z) : Z := z mod 2 ^ 64.

(** ** Bytes *)

Definition Z_of_byte (b : byte) : Z := Z.of_N (Byte.to_N b).

(** The low eight bits of [z] as an [unsigned char]. *)
Definition byte_of_Z (z : Z) : byte :=
  match Byte.of_N (Z.to_N (z mod 256)) with
  | Some b => b
  | None => x00
  end.

(** A [char] taken out of a [std::string] and promoted to [int]: plain
    [char] is signed on this platform. *)
Definition char_of_byte (b : byte) : Z :=
  let z := Z_of_byte b in if z <? 128 then z else z - 256.

(** [htonl(v)] stored through an [int*]: four bytes, most significant
    first. *)
Definition be32 (v : Z) : list byte :=
  [byte_of_Z (v / 2 ^ 24); byte_of_Z (v / 2 ^ 16);
   byte_of_Z (v / 2 ^ 8); byte_of_Z v].

(** [ntohl( *(int* )p)] as an unsigned 32-bit value; [None] when fewer than
    four bytes are there to read. *)
Definition load_be32 (l : list byte) : option Z :=
  match l with
  | b3 :: b2 :: b1 :: b0 :: _ =>
      Some (Z_of_byte b3 * 2 ^ 24 + Z_of_byte b2 * 2 ^ 16
            + Z_of_byte b1 * 2 ^ 8 + Z_of_byte b0)
  | _ => None
  end.

(** The bytes of the C string starting at the head of [l]: up to the first
    NUL, or all of [l] (whose owner, a [std::string], ends in a NUL). *)
Fixpoint c_string (l : list byte) : list byte :=
  match l with
  | [] => []
  | b :: l' => if Byte.eqb b x00 then [] else b :: c_string l'
  end.

(** ** Constants of the platform headers (x86-64 Linux) *)

Definition SYS_open : Z := 2.
Definition SYS_access : Z := 21.
Definition SYS_socket : Z := 41.
Definition SYS_bind : Z := 49.
Definition SYS_unlink : Z := 87.
Definition SYS_openat : Z := 257.
Definition SYS_unlinkat : Z := 263.
Definition SYS_faccessat : Z := 269.

Definition AT_FDCWD : Z := -100.
Definition X_OK : Z := 1.
Definition EPERM : Z := 1.
Definition EACCES : Z := 13.

(** [fs::perms]. *)
Definition perms_none : Z := 0.
Definition owner_exec : Z := 64.
Definition group_exec : Z := 8.
Definition others_exec : Z := 1.

Definition AGENT_GUARD_SOCK_NAME : string := ".agent-guard-sock".
Definition GUARDO_SOCK_NAME : string := ".guardo-sock".

(** ** Paths and number formatting *)

Definition first_char (s : string) : option ascii :=
  match s with
  | EmptyString => None
  | String c _ => Some c
  end.

Fixpoint last_char (s : string) : option ascii :=
  match s with
  | EmptyString => None
  | String c EmptyString => Some c
  | String _ s' => last_char s'
  end.

(** [p / q] of [fs::path]: a separator goes in between unless one side is
    empty or a separator is already there. *)
Definition path_append (p q : string) : string :=
  match last_char p, first_char q with
  | Some a, Some b =>
      if negb (Ascii.eqb a "/") && negb (Ascii.eqb b "/")
      then (p ++ "/" ++ q)%string
      else (p ++ q)%string
  | _, _ => (p ++ q)%string
  end.

(** [std::to_string] of an [int]. *)
Definition to_string (z : Z) : string := NilZero.string_of_int (Z.to_int z).

(** ** The [Operation] message *)

Inductive DirFd :=
| FORM_NOT_SET
| kFd (fd : Z)
| kPath (path : string).

(** [fd] has explicit presence so that [clear_fd] is visible. *)
Record Socket := { socket_fd : option Z }.

Definition Socket_fd (s : Socket) : Z :=
  match socket_fd s with Some fd => fd | None => 0 end.

Definition clear_fd (s : Socket) : Socket := {| socket_fd := None |}.

Inductive Arg :=
| ARG_NOT_SET
| int_arg (v : Z)
| string_arg (v : string)
| bytes_arg (v : list byte)
| dir_fd_arg (v : DirFd)
| socket_arg (v : Socket).

Record Operation := { syscall_num : Z; args : list Arg }.

(** [op->add_args()] followed by the setter that fills the new entry. *)
Definition add_args (a : Arg) (op : Operation) : Operation :=
  {| syscall_num := syscall_num op; args := args op ++ [a] |}.

Record ElevationResponse := { is_result_fd : bool; result : Z }.

(** [google::protobuf::MessageLite], as far as this file uses it. The wire
    encoding itself is generated code outside this file. *)
Class MessageLite (T : Type) := {
  SerializeAsString : T -> list byte;
  ParseFromString : list byte -> option T
}.

(** ** Effects *)

Inductive exn :=
| std_exception (what : string)
| other_exception.

(** How a call ends: it returns, it throws, or its behaviour is undefined
    (a read through a null pointer or past the end of a buffer). *)
Inductive outcome (A : Type) :=
| Ok (a : A)
| Throw (e : exn)
| Undefined.
Arguments Throw {A} e.
Arguments Undefined {A}.

Inductive Event :=
| ev_syscall_no_intercept (n a0 a1 a2 a3 a4 a5 : Z)
| ev_openat_cwd
| ev_connect (addr : string)
| ev_sendmsg (addr : string) (data : list byte) (fds : list Z)
| ev_write (addr : string) (data : list byte)
| ev_read_full (addr : string) (n : Z)
| ev_recvmsg (addr : string)
| ev_cerr (msg : string)
| ev_print_exception (e : exn).

(** Everything outside the process that the filter consults. One record
    describes one run: what the kernel answers and what the two daemons
    send. *)
Record Env := {
  syscall_no_intercept : Z -> Z -> Z -> Z -> Z -> Z -> Z -> Z;
  c_str : Z -> string;
  mem_bytes : Z -> Z -> list byte;
  getenv : string -> option string;
  openat_cwd : Z;
  current_path : exn + string;
  read_symlink : string -> exn + string;
  status_permissions : string -> exn + Z;
  connect_error : string -> option exn;
  send_error : string -> list byte -> option exn;
  peer_stream : string -> list byte;
  peer_recvmsg : string -> exn + (list byte * list Z)
}.

(** What the filter changes: the cell behind [long *result] and the
    sequence of calls made so far. *)
Record World := { w_result : Z; w_trace : list Event }.

Definition M (A : Type) : Type := Env -> World -> outcome A * World.

Definition ret {A} (a : A) : M A := fun _ w => (Ok a, w).

Definition bind {A B} (m : M A) (f : A -> M B) : M B :=
  fun env w =>
    match m env w with
    | (Ok a, w') => f a env w'
    | (Throw e, w') => (Throw e, w')
    | (Undefined, w') => (Undefined, w')
    end.

Definition throw {A} (e : exn) : M A := fun _ w => (Throw e, w).

Definition undefined {A} : M A := fun _ w => (Undefined, w).

Definition ask {A} (f : Env -> A) : M A := fun env w => (Ok (f env), w).

Definition emit (ev : Event) : M unit :=
  fun _ w => (Ok tt, {| w_result := w_result w; w_trace := w_trace w ++ [ev] |}).

Definition set_result (v : Z) : M unit :=
  fun _ w => (Ok tt, {| w_result := v; w_trace := w_trace w |}).

Definition raise_or_return {A} (r : exn + A) : M A :=
  match r with
  | inl e => throw e
  | inr a => ret a
  end.

Definition raise_if (r : option exn) : M unit :=
  match r with
  | Some e => throw e
  | None => ret tt
  end.

(** [try { m } catch (...) { h }]. Undefined behaviour is not an
    exception and is not caught. *)
Definition try_catch {A} (m : M A) (h : exn -> M A) : M A :=
  fun env w =>
    match m env w with
    | (Throw e, w') => h e env w'
    | r => r
    end.

Declare Scope monad_scope.
Delimit Scope monad_scope with monad.
Notation "x <- m ;; k" := (bind m (fun x => k))
  (at level 61, m at next level, right associativity) : monad_scope.
Notation "' pat <- m ;; k" := (bind m (fun x => match x with pat => k end))
  (at level 61, pat pattern, m at next level, right associativity) : monad_scope.
Notation "m ;; k" := (bind m (fun _ => k))
  (at level 61, right associativity) : monad_scope.
Open Scope monad_scope.

Definition cerr (msg : string) : M unit := emit (ev_cerr msg).

(** ** [marshal_fds] *)

(** [std::make_unique<FileDescriptor>(openat(AT_FDCWD, ".", O_RDONLY, 0))]
    followed by the test of [fd_num()]. *)
Definition duplicate_cwd : M Z :=
  emit ev_openat_cwd ;;
  fd_num <- ask openat_cwd ;;
  if fd_num <? 0
  then throw (std_exception "Failed to duplicate AT_FDCWD")
  else ret fd_num.

(** One turn of the loop body on [arg], with the two variables the loop
    carries: [fd_cwd] (empty until the first duplication) and [fds]. *)
Definition marshal_arg (arg : Arg) (fd_cwd : option Z) (fds : list Z)
  : M (Arg * option Z * list Z) :=
  match arg with
  | dir_fd_arg dir_fd =>
      match dir_fd with
      | kFd fd =>
          if fd =? AT_FDCWD then
            fd_cwd_num <- match fd_cwd with
                          | Some n => ret n
                          | None => duplicate_cwd
                          end ;;
            let fds := fds ++ [fd_cwd_num] in
            cwd <- bind (ask current_path) raise_or_return ;;
            ret (dir_fd_arg (kPath cwd), Some fd_cwd_num, fds)
          else
            let fds := fds ++ [fd] in
            target <- bind (ask (fun env =>
                        read_symlink env (path_append "/proc/self/fd" (to_string fd))))
                        raise_or_return ;;
            ret (dir_fd_arg (kPath target), fd_cwd, fds)
      | _ => ret (arg, fd_cwd, fds)
      end
  | socket_arg sock =>
      let fds := fds ++ [Socket_fd sock] in
      ret (socket_arg (clear_fd sock), fd_cwd, fds)
  | _ => ret (arg, fd_cwd, fds)
  end.

(** The [for] loop over [*op->mutable_args()]; the arguments are rewritten
    in place, so the loop returns them along with its variables. *)
Fixpoint marshal_args (l : list Arg) (fd_cwd : option Z) (fds : list Z)
  : M (list Arg * option Z * list Z) :=
  match l with
  | [] => ret ([], fd_cwd, fds)
  | arg :: rest =>
      '(arg', fd_cwd, fds) <- marshal_arg arg fd_cwd fds ;;
      '(rest', fd_cwd, fds) <- marshal_args rest fd_cwd fds ;;
      ret (arg' :: rest', fd_cwd, fds)
  end.

(** Returns the rewritten operation, the grown [fds] and the owner of the
    duplicated working directory, if one was made. *)
Definition marshal_fds (op : Operation) (fds : list Z)
  : M (Operation * list Z * option Z) :=
  '(args', fd_cwd, fds) <- marshal_args (args op) None fds ;;
  ret ({| syscall_num := syscall_num op; args := args' |}, fds, fd_cwd).

(** ** The encoders *)

Definition create_open_op (dir_fd : Z) (path : string) (flags mode : Z)
  (op : Operation) : Operation :=
  let op := add_args (dir_fd_arg (kFd dir_fd)) op in
  let op := add_args (string_arg path) op in
  let op := add_args (int_arg flags) op in
  add_args (int_arg mode) op.

Definition create_unlink_op (dir_fd : Z) (path : string) (flags : Z)
  (op : Operation) : Operation :=
  let op := add_args (dir_fd_arg (kFd dir_fd)) op in
  let op := add_args (string_arg path) op in
  add_args (int_arg flags) op.

(** [fs::status(path).permissions()] can throw. *)
Definition create_access_op (dir_fd : Z) (path : string) (mode flags : Z)
  (op : Operation) : M (bool * Operation) :=
  not_executable <-
    (if mode =? X_OK then
       p <- bind (ask (fun env => status_permissions env path)) raise_or_return ;;
       ret ((Z.land p owner_exec =? perms_none)
            && (Z.land p group_exec =? perms_none)
            && (Z.land p others_exec =? perms_none))
     else ret false) ;;
  if (not_executable : bool) then ret (false, op)
  else
    let op := add_args (dir_fd_arg (kFd dir_fd)) op in
    let op := add_args (string_arg path) op in
    let op := add_args (int_arg mode) op in
    let op := add_args (int_arg flags) op in
    ret (true, op).

Definition create_socket_op (domain type protocol : Z) (op : Operation)
  : Operation :=
  let op := add_args (int_arg domain) op in
  let op := add_args (int_arg type) op in
  add_args (int_arg protocol) op.

Definition create_bind_op (sockfd : Z) (addr : list byte) (op : Operation)
  : Operation :=
  let op := add_args (socket_arg {| socket_fd := Some sockfd |}) op in
  add_args (bytes_arg addr) op.

(** ** Sockets *)

(** A connected [UnixSocket]: where it is connected to and what the peer
    has sent that was not read yet. *)
Record UnixSocket := { peer : string; unread : list byte }.

(** Modelled from the spec: [UnixSocket::connect], [sendmsg] and [write]
    are declared in [socket.hh]; each makes its call on the socket and
    raises when the call fails. A new connection starts with everything
    the peer will send still unread. *)
Definition connect (addr : string) : M UnixSocket :=
  emit (ev_connect addr) ;;
  bind (ask (fun env => connect_error env addr)) raise_if ;;
  stream <- ask (fun env => peer_stream env addr) ;;
  ret {| peer := addr; unread := stream |}.

Definition sendmsg (socket : UnixSocket) (data : list byte) (fds : list Z)
  : M unit :=
  emit (ev_sendmsg (peer socket) data fds) ;;
  bind (ask (fun env => send_error env (peer socket) data)) raise_if.

Definition write (socket : UnixSocket) (data : list byte) : M unit :=
  emit (ev_write (peer socket) data) ;;
  bind (ask (fun env => send_error env (peer socket) data)) raise_if.

(** Modelled from the spec: [FileDescriptor::read_full] is declared in
    [socket.hh]; it reads exactly [n] bytes, and a stream that ends before
    that (or a count that no stream can satisfy) is a transport failure,
    raised as an exception. *)
Definition read_full (fd : UnixSocket) (n : Z) : M (list byte * UnixSocket) :=
  emit (ev_read_full (peer fd) n) ;;
  if (n <? 0) || (Z.of_nat (length (unread fd)) <? n)
  then throw (std_exception "read_full")
  else ret (firstn (Z.to_nat n) (unread fd),
            {| peer := peer fd; unread := skipn (Z.to_nat n) (unread fd) |}).

(** Modelled from the spec: [UnixSocket::recvmsg] is declared in
    [socket.hh]; it returns the bytes of one receive and the descriptors
    that came with them, or raises. *)
Definition recvmsg (socket : UnixSocket) : M (list byte * list Z) :=
  emit (ev_recvmsg (peer socket)) ;;
  bind (ask (fun env => peer_recvmsg env (peer socket))) raise_or_return.

(** ** Framing *)

Definition create_raw_msg {T} `{MessageLite T} (msg_num : byte) (msg : T)
  : list byte :=
  let raw_msg := repeat x00 5 in
  let raw_msg := firstn 4 raw_msg ++ msg_num :: skipn 5 raw_msg in
  let raw_msg := raw_msg ++ SerializeAsString msg in
  be32 (to_uint32 (Z.of_nat (length raw_msg) - 4)) ++ skipn 4 raw_msg.

(** [packet[0]]: the first [char], or the terminator of an empty string. *)
Definition front_char (packet : list byte) : Z :=
  match packet with
  | [] => 0
  | b :: _ => char_of_byte b
  end.

(** [packet.substr(1)] throws [std::out_of_range] on an empty string. *)
Definition substr1 (packet : list byte) : M (list byte) :=
  match packet with
  | [] => throw (std_exception "basic_string::substr")
  | _ :: payload => ret payload
  end.

(** [None] is the [false] return; [Some msg] is [true] with [*msg] filled. *)
Definition read_expected_msg {T} `{MessageLite T} (fd : UnixSocket)
  (expected_msg_num : byte) : M (option T * UnixSocket) :=
  '(packet_len_buf, fd) <- read_full fd 4 ;;
  match load_be32 packet_len_buf with
  | None => undefined
  | Some len =>
      let packet_len := to_int len in
      '(packet, fd) <- read_full fd packet_len ;;
      if negb (front_char packet =? Z_of_byte expected_msg_num) then
        cerr "Invalid msg_num" ;;
        ret (None, fd)
      else
        payload <- substr1 packet ;;
        match ParseFromString payload with
        | None =>
            cerr "Failed to parse msg from string" ;;
            ret (None, fd)
        | Some msg => ret (Some msg, fd)
        end
  end.

(** The payload is handed to [ParseFromString] as a [const char*], so what
    is parsed is the C string at [data() + 5]. *)
Definition read_expected_msg_with_fd {T} `{MessageLite T} (socket : UnixSocket)
  (expected_msg_num : byte) : M (option T * list Z) :=
  '(response_data, fds) <- recvmsg socket ;;
  match load_be32 response_data with
  | None => undefined
  | Some len =>
      let payload_size := to_int len in
      if negb (Z.of_nat (length response_data) =? to_size_t (4 + payload_size)) then
        cerr "Error: enexpected data size" ;;
        ret (None, fds)
      else
        let msg_num := nth 4 response_data x00 in
        if negb (Byte.eqb msg_num expected_msg_num) then
          cerr "Invalid msg_num" ;;
          ret (None, fds)
        else if (length response_data <? 5)%nat then undefined
        else
          match ParseFromString (c_string (skipn 5 response_data)) with
          | None =>
              cerr "Error: failed to parse msg" ;;
              ret (None, fds)
          | Some msg => ret (Some msg, fds)
          end
  end.

(** [std::string(dir)] on a null [dir] is undefined. *)
Definition user_runtime_dir : M string :=
  dir <- ask (fun env => getenv env "XDG_RUNTIME_DIR") ;;
  dir <- match dir with
         | None => ask (fun env => getenv env "HOME")
         | Some _ => ret dir
         end ;;
  match dir with
  | None => undefined
  | Some d => ret d
  end.

(** ** The negotiation *)

(** Which [return] of [hook] was taken. The source returns [void]; the
    label only names the exit. *)
Inductive hook_exit :=
| exit_unexpected_syscall
| exit_should_not_hook
| exit_no_challenge
| exit_no_credential
| exit_no_elevation_response
| exit_no_descriptor
| exit_result_set.

Record ChallengeRequest := { }.

Section Protocol.

(** The authorization artifacts and the message numbers come from the
    generated protocol headers; the filter treats them as opaque. *)
Variables Challenge Credential : Type.

Variables CHALLENGE_REQUEST CHALLENGE_RESPONSE : byte.
Variables CREDENTIAL_REQUEST CREDENTIAL_RESPONSE : byte.
Variables ELEVATION_REQUEST ELEVATION_RESPONSE : byte.
Variable CredentialResponse_Status_APPROVED : Z.

Record CredentialRequest := {
  credential_request_op : Operation;
  credential_request_challenge : Challenge
}.

Record CredentialResponse := {
  status : Z;
  credential : Credential
}.

Record ElevationRequest := {
  elevation_request_op : Operation;
  elevation_request_credential : Credential
}.

Context {ChallengeRequest_msg : MessageLite ChallengeRequest}.
Context {Challenge_msg : MessageLite Challenge}.
Context {CredentialRequest_msg : MessageLite CredentialRequest}.
Context {CredentialResponse_msg : MessageLite CredentialResponse}.
Context {ElevationRequest_msg : MessageLite ElevationRequest}.
Context {ElevationResponse_msg : MessageLite ElevationResponse}.

(** [None] is the [false] return; [Some c] is [true] with [*credential = c]. *)
Definition get_credential (op : Operation) (challenge : Challenge)
  : M (option Credential) :=
  dir <- user_runtime_dir ;;
  socket <- connect (path_append dir AGENT_GUARD_SOCK_NAME) ;;
  let request := {| credential_request_op := op;
                    credential_request_challenge := challenge |} in
  write socket (create_raw_msg CREDENTIAL_REQUEST request) ;;
  '(response, socket) <- read_expected_msg socket CREDENTIAL_RESPONSE ;;
  match response with
  | None =>
      cerr "Failed to read CredentialResponse" ;;
      ret None
  | Some response =>
      if negb (status response =? CredentialResponse_Status_APPROVED) then
        cerr "Credential request not approved" ;;
        ret None
      else ret (Some (credential response))
  end.

(** The [switch] of [hook]: [None] is the [default] case, otherwise
    [should_hook] and the encoded operation. *)
Definition hook_switch (syscall_number arg0 arg1 arg2 arg3 : Z)
  (op : Operation) : M (option (bool * Operation)) :=
  if syscall_number =? SYS_open then
    path <- ask (fun env => c_str env arg0) ;;
    ret (Some (true, create_open_op AT_FDCWD path (to_int arg1) (to_int arg2) op))
  else if syscall_number =? SYS_openat then
    path <- ask (fun env => c_str env arg1) ;;
    ret (Some (true, create_open_op (to_int arg0) path (to_int arg2) (to_int arg3) op))
  else if syscall_number =? SYS_unlink then
    path <- ask (fun env => c_str env arg0) ;;
    ret (Some (true, create_unlink_op AT_FDCWD path 0 op))
  else if syscall_number =? SYS_unlinkat then
    path <- ask (fun env => c_str env arg1) ;;
    ret (Some (true, create_unlink_op (to_int arg0) path (to_int arg2) op))
  else if syscall_number =? SYS_access then
    path <- ask (fun env => c_str env arg0) ;;
    r <- create_access_op AT_FDCWD path (to_int arg1) 0 op ;;
    ret (Some r)
  else if syscall_number =? SYS_faccessat then
    path <- ask (fun env => c_str env arg1) ;;
    r <- create_access_op (to_int arg0) path (to_int arg2) (to_int arg3) op ;;
    ret (Some r)
  else if syscall_number =? SYS_socket then
    ret (Some (true, create_socket_op (to_int arg0) (to_int arg1) (to_int arg2) op))
  else if syscall_number =? SYS_bind then
    addr <- ask (fun env => mem_bytes env arg1 (to_uint32 arg2)) ;;
    ret (Some (true, create_bind_op (to_int arg0) addr op))
  else
    cerr "Error: unexpected intercepted syscall" ;;
    ret None.

(** What [hook] does once the operation is built and [should_hook] holds:
    lines 246 to 286. *)
Definition negotiate (op : Operation) (fds : list Z) : M hook_exit :=
  '(op, fds, fd_cwd) <- marshal_fds op fds ;;
  socket <- connect (path_append "/tmp" GUARDO_SOCK_NAME) ;;
  let challenge_req := Build_ChallengeRequest in
  sendmsg socket (create_raw_msg CHALLENGE_REQUEST challenge_req) [] ;;
  '(challenge, socket) <- read_expected_msg socket CHALLENGE_RESPONSE ;;
  match challenge with
  | None =>
      cerr "Failed to get challenge" ;;
      ret exit_no_challenge
  | Some challenge =>
      credential <- get_credential op challenge ;;
      match credential with
      | None => ret exit_no_credential
      | Some credential =>
          let elevation_request :=
            {| elevation_request_op := op;
               elevation_request_credential := credential |} in
          sendmsg socket (create_raw_msg ELEVATION_REQUEST elevation_request) fds ;;
          '(elevation_response, fds) <-
            read_expected_msg_with_fd socket ELEVATION_RESPONSE ;;
          match elevation_response with
          | None => ret exit_no_elevation_response
          | Some elevation_response =>
              if is_result_fd elevation_response then
                match fds with
                | [] =>
                    cerr "Error: no file descriptor with approval" ;;
                    ret exit_no_descriptor
                | fd0 :: _ =>
                    set_result fd0 ;;
                    ret exit_result_set
                end
              else
                set_result (result elevation_response) ;;
                ret exit_result_set
          end
      end
  end.

Definition hook (syscall_number arg0 arg1 arg2 arg3 arg4 arg5 : Z)
  : M hook_exit :=
  let op := {| syscall_num := syscall_number; args := [] |} in
  let fds : list Z := [] in
  encoded <- hook_switch syscall_number arg0 arg1 arg2 arg3 op ;;
  match encoded with
  | None => ret exit_unexpected_syscall
  | Some (should_hook, op) =>
      if negb should_hook then ret exit_should_not_hook
      else negotiate op fds
  end.

(** The [switch] of [safe_hook]: does the syscall number get past it? *)
Definition safe_hook_switch (syscall_number : Z) : bool :=
  if syscall_number =? SYS_open then true
  else if syscall_number =? SYS_openat then true
  else if syscall_number =? SYS_unlink then true
  else if syscall_number =? SYS_unlinkat then true
  else if syscall_number =? SYS_access then true
  else if syscall_number =? SYS_socket then true
  else if syscall_number =? SYS_bind then true
  else false.

Definition catch_all (e : exn) : M unit :=
  match e with
  | std_exception _ => emit (ev_print_exception e)
  | other_exception => cerr "Unknown exeception caught in hook"
  end.

Definition safe_hook (syscall_number arg0 arg1 arg2 arg3 arg4 arg5 : Z)
  : M Z :=
  if negb (safe_hook_switch syscall_number) then ret 1
  else
    emit (ev_syscall_no_intercept syscall_number arg0 arg1 arg2 arg3 arg4 arg5) ;;
    real_result <- ask (fun env =>
      syscall_no_intercept env syscall_number arg0 arg1 arg2 arg3 arg4 arg5) ;;
    set_result real_result ;;
    if negb (real_result =? - EACCES) && negb (real_result =? - EPERM) then ret 0
    else
      try_catch
        (hook syscall_number arg0 arg1 arg2 arg3 arg4 arg5 ;; ret tt)
        catch_all ;;
      ret 0.

End Protocol.

Arguments get_credential {Challenge Credential} CREDENTIAL_REQUEST
  CREDENTIAL_RESPONSE CredentialResponse_Status_APPROVED
  {CredentialRequest_msg CredentialResponse_msg} op challenge.
Arguments negotiate {Challenge Credential} CHALLENGE_REQUEST CHALLENGE_RESPONSE
  CREDENTIAL_REQUEST CREDENTIAL_RESPONSE ELEVATION_REQUEST ELEVATION_RESPONSE
  CredentialResponse_Status_APPROVED {_ _ _ _ _ _} op fds.
Arguments hook {Challenge Credential} CHALLENGE_REQUEST CHALLENGE_RESPONSE
  CREDENTIAL_REQUEST CREDENTIAL_RESPONSE ELEVATION_REQUEST ELEVATION_RESPONSE
  CredentialResponse_Status_APPROVED {_ _ _ _ _ _}
  syscall_number arg0 arg1 arg2 arg3 arg4 arg5.
Arguments safe_hook {Challenge Credential} CHALLENGE_REQUEST CHALLENGE_RESPONSE
  CREDENTIAL_REQUEST CREDENTIAL_RESPONSE ELEVATION_REQUEST ELEVATION_RESPONSE
  CredentialResponse_Status_APPROVED {_ _ _ _ _ _}
  syscall_number arg0 arg1 arg2 arg3 arg4 arg5.

(** ** A concrete protocol and a concrete run

    A small wire encoding and one environment, used to run the model: the
    artifacts are byte strings, a credential response is its status byte
    followed by the credential, an elevation response is a flag byte and a
    result byte. *)

Module Sample.

Definition Challenge := list byte.
Definition Credential := list byte.

Definition CHALLENGE_REQUEST : byte := x01.
Definition CHALLENGE_RESPONSE : byte := x02.
Definition ELEVATION_REQUEST : byte := x03.
Definition ELEVATION_RESPONSE : byte := x04.
Definition CREDENTIAL_REQUEST : byte := x05.
Definition CREDENTIAL_RESPONSE : byte := x06.
Definition APPROVED : Z := 0.
Definition DENIED : Z := 1.

#[export] Instance ChallengeRequest_msg : MessageLite ChallengeRequest := {
  SerializeAsString := fun _ => [];
  ParseFromString := fun _ => Some Build_ChallengeRequest
}.

#[export] Instance Challenge_msg : MessageLite Challenge := {
  SerializeAsString := fun c => c;
  ParseFromString := fun l => Some l
}.

#[export] Instance CredentialRequest_msg
  : MessageLite (CredentialRequest Challenge) := {
  SerializeAsString := fun r =>
    byte_of_Z (syscall_num (credential_request_op r))
    :: credential_request_challenge r;
  ParseFromString := fun _ => None
}.

#[export] Instance CredentialResponse_msg
  : MessageLite (CredentialResponse Credential) := {
  SerializeAsString := fun r => byte_of_Z (status r) :: credential r;
  ParseFromString := fun l =>
    match l with
    | [] => None
    | b :: c => Some {| status := Z_of_byte b; credential := c |}
    end
}.

#[export] Instance ElevationRequest_msg
  : MessageLite (ElevationRequest Credential) := {
  SerializeAsString := fun r =>
    byte_of_Z (syscall_num (elevation_request_op r))
    :: elevation_request_credential r;
  ParseFromString := fun _ => None
}.

#[export] Instance ElevationResponse_msg : MessageLite ElevationResponse := {
  SerializeAsString := fun r =>
    [if is_result_fd r then x01 else x02; byte_of_Z (result r)];
  ParseFromString := fun l =>
    match l with
    | flag :: v :: _ =>
        Some {| is_result_fd := Byte.eqb flag x01; result := Z_of_byte v |}
    | _ => None
    end
}.

Definition guardo_addr : string := "/tmp/.guardo-sock".

(** One run: the real syscall returns [real]; the path arguments point at
    "secret", a file with permissions 0644; both daemons cooperate; the
    agent answers with [agent_status]; the elevation daemon answers
    [response] and attaches [fds]. *)
Definition env (real agent_status : Z) (response : ElevationResponse)
  (fds : list Z) : Env := {|
  syscall_no_intercept := fun _ _ _ _ _ _ _ => real;
  c_str := fun _ => "secret"%string;
  mem_bytes := fun _ _ => [];
  getenv := fun name =>
    if String.eqb name "XDG_RUNTIME_DIR" then Some "/run/user/1000"%string
    else None;
  openat_cwd := 7;
  current_path := inr "/home/user"%string;
  read_symlink := fun _ => inr "/srv/data"%string;
  status_permissions := fun _ => inr 420;
  connect_error := fun _ => None;
  send_error := fun _ _ => None;
  peer_stream := fun addr =>
    if String.eqb addr guardo_addr
    then create_raw_msg CHALLENGE_RESPONSE ([x2a; x2b] : Challenge)
    else create_raw_msg CREDENTIAL_RESPONSE
           {| status := agent_status; credential := [x63] : Credential |};
  peer_recvmsg := fun _ =>
    inr (create_raw_msg ELEVATION_RESPONSE response, fds)
|}.

(** The same run with no daemon listening: every [connect] raises [e]. *)
Definition unreachable (e : exn) (base : Env) : Env := {|
  syscall_no_intercept := syscall_no_intercept base;
  c_str := c_str base;
  mem_bytes := mem_bytes base;
  getenv := getenv base;
  openat_cwd := openat_cwd base;
  current_path := current_path base;
  read_symlink := read_symlink base;
  status_permissions := status_permissions base;
  connect_error := fun _ => Some e;
  send_error := send_error base;
  peer_stream := peer_stream base;
  peer_recvmsg := peer_recvmsg base
|}.

Definition descriptor_granted : ElevationResponse :=
  {| is_result_fd := true; result := 5 |}.

Definition world0 : World := {| w_result := 0; w_trace := [] |}.

Definition run_hook (e : Env) (n a0 a1 a2 a3 a4 a5 : Z) (w : World)
  : outcome hook_exit * World :=
  hook (Challenge := Challenge) (Credential := Credential)
    CHALLENGE_REQUEST CHALLENGE_RESPONSE CREDENTIAL_REQUEST CREDENTIAL_RESPONSE
    ELEVATION_REQUEST ELEVATION_RESPONSE APPROVED n a0 a1 a2 a3 a4 a5 e w.

Definition run_safe_hook (e : Env) (n a0 a1 a2 a3 a4 a5 : Z) (w : World)
  : outcome Z * World :=
  safe_hook (Challenge := Challenge) (Credential := Credential)
    CHALLENGE_REQUEST CHALLENGE_RESPONSE CREDENTIAL_REQUEST CREDENTIAL_RESPONSE
    ELEVATION_REQUEST ELEVATION_RESPONSE APPROVED n a0 a1 a2 a3 a4 a5 e w.

End Sample.

(** * Vocabulary of the statements *)

(** ** Reasoning about computations in [M] *)

(** [m] leaves the result cell alone and only adds events that satisfy
    [P] to the trace, however it ends. *)
Definition quiet {A} (P : Event -> Prop) (m : M A) (env : Env) : Prop :=
  forall w, exists evs,
    snd (m env w) = {| w_result := w_result w; w_trace := w_trace w ++ evs |}
    /\ Forall P evs.


(** [m] writes the result cell only on the way to [exit_result_set]. *)
Definition guarded (m : M hook_exit) (env : Env) : Prop :=
  forall w, fst (m env w) = Ok exit_result_set
            \/ w_result (snd (m env w)) = w_result w.

(** Socket traffic of any kind. *)
Definition is_network (ev : Event) : bool :=
  match ev with
  | ev_connect _ | ev_sendmsg _ _ _ | ev_write _ _
  | ev_read_full _ _ | ev_recvmsg _ => true
  | _ => false
  end.

Definition is_sendmsg (ev : Event) : bool :=
  match ev with
  | ev_sendmsg _ _ _ => true
  | _ => false
  end.

(** The permission-denied class of results of the real syscall. *)
Definition permission_denied (r : Z) : Prop := r = - EACCES \/ r = - EPERM.

(** The world in which [safe_hook] calls [hook]: the real syscall has been
    made and its result stored. *)
Definition after_real_syscall (env : Env) (n a0 a1 a2 a3 a4 a5 : Z)
  (w : World) : World :=
  {| w_result := syscall_no_intercept env n a0 a1 a2 a3 a4 a5;
     w_trace := w_trace w ++ [ev_syscall_no_intercept n a0 a1 a2 a3 a4 a5] |}.

(** [hook] ended without an elevated result: one of its early returns, or
    an exception. *)
Definition aborted (r : outcome hook_exit) : Prop :=
  match r with
  | Ok exit_result_set => False
  | Ok _ => True
  | Throw _ => True
  | Undefined => False
  end.

(** What [catch_all] logs for [e]. *)
Definition catch_event (e : exn) : Event :=
  match e with
  | std_exception _ => ev_print_exception e
  | other_exception => ev_cerr "Unknown exeception caught in hook"
  end.

(** No descriptor number is left inside the argument. *)
Definition descriptor_free (a : Arg) : bool :=
  match a with
  | dir_fd_arg (kFd _) => false
  | socket_arg s => match socket_fd s with None => true | Some _ => false end
  | _ => true
  end.

Definition is_cwd_arg (a : Arg) : bool :=
  match a with
  | dir_fd_arg (kFd fd) => fd =? AT_FDCWD
  | _ => false
  end.

(** The arguments [marshal_fds] takes a descriptor from: a directory
    argument still in raw form, and any socket argument. *)
Definition carries_descriptor (a : Arg) : bool :=
  match a with
  | dir_fd_arg (kFd _) | socket_arg _ => true
  | _ => false
  end.

(** The descriptor taken from such an argument. *)
Definition transplant (env : Env) (a : Arg) : Z :=
  match a with
  | dir_fd_arg (kFd fd) => if fd =? AT_FDCWD then openat_cwd env else fd
  | socket_arg s => Socket_fd s
  | _ => 0
  end.

Definition transplants (env : Env) (l : list Arg) : list Z :=
  map (transplant env) (filter carries_descriptor l).

(** The duplications of the working directory that resolving [l] makes
    when [fd_cwd] is what was duplicated before. *)
Definition duplications (fd_cwd : option Z) (l : list Arg) : list Event :=
  if existsb is_cwd_arg l
  then match fd_cwd with None => [ev_openat_cwd] | Some _ => [] end
  else [].

(** How [marshal_fds] rewrites one argument. *)
Inductive resolves (env : Env) : Arg -> Arg -> Prop :=
| resolves_cwd cwd :
    current_path env = inr cwd ->
    resolves env (dir_fd_arg (kFd AT_FDCWD)) (dir_fd_arg (kPath cwd))
| resolves_fd fd target :
    fd <> AT_FDCWD ->
    read_symlink env (path_append "/proc/self/fd" (to_string fd)) = inr target ->
    resolves env (dir_fd_arg (kFd fd)) (dir_fd_arg (kPath target))
| resolves_socket s :
    resolves env (socket_arg s) (socket_arg {| socket_fd := None |})
| resolves_other a :
    match a with
    | dir_fd_arg (kFd _) | socket_arg _ => False
    | _ => True
    end ->
    resolves env a a.

(** The directory [user_runtime_dir] settles on. *)
Definition runtime_dir_of (env : Env) : option string :=
  match getenv env "XDG_RUNTIME_DIR" with
  | Some d => Some d
  | None => getenv env "HOME"
  end.

(** Reading never sends: only [read_full] and [cerr] events. *)
Definition reads_or_logs (ev : Event) : Prop :=
  match ev with
  | ev_read_full _ _ | ev_recvmsg _ | ev_cerr _ => True
  | _ => False
  end.

(** A socket just connected to [addr]: nothing read yet. *)
Definition fresh_socket (env : Env) (addr : string) : UnixSocket :=
  {| peer := addr; unread := peer_stream env addr |}.

(** What [read_expected_msg] makes of the first message the peer at [addr]
    sends on a fresh connection. *)
Definition received {T} `{MessageLite T} (env : Env) (addr : string)
  (expected_msg_num : byte) : outcome (option T) :=
  match fst (read_expected_msg (fresh_socket env addr) expected_msg_num env
               {| w_result := 0; w_trace := [] |}) with
  | Ok (msg, _) => Ok msg
  | Throw e => Throw e
  | Undefined => Undefined
  end.

(** [m] leaves the result cell alone, and the [sendmsg] events it adds to
    the trace, in order, satisfy [S]. *)
Definition sends {A} (S : list Event -> Prop) (m : M A) (env : Env) : Prop :=
  forall w, exists evs,
    snd (m env w) = {| w_result := w_result w; w_trace := w_trace w ++ evs |}
    /\ S (filter is_sendmsg evs).

(** What [m] returns does not depend on the world it starts in, only on
    the environment. *)
Definition oblivious {A} (m : M A) (env : Env) : Prop :=
  forall w w', fst (m env w) = fst (m env w').

(** ** Further vocabulary *)

(** [m] only adds events that satisfy [P] to the trace, however it ends;
    the result cell may change. *)
Definition logs {A} (P : Event -> Prop) (m : M A) (env : Env) : Prop :=
  forall w, exists evs,
    w_trace (snd (m env w)) = w_trace w ++ evs /\ Forall P evs.

Definition is_real_syscall (ev : Event) : bool :=
  match ev with
  | ev_syscall_no_intercept _ _ _ _ _ _ _ => true
  | _ => false
  end.

(** The events [hook] can produce: anything but the real syscall, which
    [safe_hook] makes, and the log of a caught exception. *)
Definition hook_event (ev : Event) : Prop :=
  match ev with
  | ev_syscall_no_intercept _ _ _ _ _ _ _ | ev_print_exception _ => False
  | _ => True
  end.

(** A value that fits an [int]. *)
Definition int_range (v : Z) : Prop := - 2 ^ 31 <= v < 2 ^ 31.

(** Every number inside the argument fits an [int]. *)
Definition int_sized (a : Arg) : Prop :=
  match a with
  | int_arg v => int_range v
  | dir_fd_arg (kFd fd) => int_range fd
  | socket_arg s => int_range (Socket_fd s)
  | _ => True
  end.

(** No execute bit for owner, group or others. *)
Definition not_executable (p : Z) : Prop :=
  Z.land p owner_exec = perms_none
  /\ Z.land p group_exec = perms_none
  /\ Z.land p others_exec = perms_none.

(** What [read_expected_msg_with_fd] makes of the one receive the peer at
    [addr] answers with. *)
Definition answered {T} `{MessageLite T} (env : Env) (addr : string)
  (expected_msg_num : byte) : outcome (option T * list Z) :=
  fst (read_expected_msg_with_fd (fresh_socket env addr) expected_msg_num env
         {| w_result := 0; w_trace := [] |}).

(** The events of the credential phase. *)
Definition credential_event (ev : Event) : Prop :=
  match ev with
  | ev_connect _ | ev_write _ _ | ev_read_full _ _ | ev_cerr _ => True
  | _ => False
  end.

(** [m] never returns [x]. *)
Definition never_returns {A} (x : A) (m : M A) (env : Env) : Prop :=
  forall w, fst (m env w) <> Ok x.

Section NegotiationEvents.

Variables Challenge Credential : Type.
Variables CHALLENGE_REQUEST CHALLENGE_RESPONSE : byte.
Variables CREDENTIAL_REQUEST ELEVATION_REQUEST : byte.
Context {ChallengeRequest_msg : MessageLite ChallengeRequest}.
Context {Challenge_msg : MessageLite Challenge}.
Context {CredentialRequest_msg : MessageLite (CredentialRequest Challenge)}.
Context {ElevationRequest_msg : MessageLite (ElevationRequest Credential)}.

(** What a [sendmsg] of the negotiation for [op] may be: the challenge
    request without descriptors, or an elevation request whose operation is
    [op] resolved, with the descriptors taken out of [op] attached. Both go
    to the elevation daemon. *)
Definition negotiation_send (env : Env) (op : Operation) (fds : list Z)
  (ev : Event) : Prop :=
  match ev with
  | ev_sendmsg addr data sent_fds =>
      addr = path_append "/tmp" GUARDO_SOCK_NAME
      /\ ((data = create_raw_msg CHALLENGE_REQUEST Build_ChallengeRequest
           /\ sent_fds = [])
          \/ exists op1 (credential : Credential),
               data = create_raw_msg ELEVATION_REQUEST
                        {| elevation_request_op := op1;
                           elevation_request_credential := credential |}
               /\ syscall_num op1 = syscall_num op
               /\ Forall2 (resolves env) (args op) (args op1)
               /\ forallb descriptor_free (args op1) = true
               /\ sent_fds = fds ++ transplants env (args op))
  | _ => True
  end.

(** What a [write] of the negotiation for [op] may be: the credential
    request for [op] resolved and the challenge the elevation daemon sent,
    written to the agent's socket in the runtime directory. *)
Definition negotiation_write (env : Env) (op : Operation) (ev : Event) : Prop :=
  match ev with
  | ev_write addr data =>
      exists dir op1 (challenge : Challenge),
        runtime_dir_of env = Some dir
        /\ addr = path_append dir AGENT_GUARD_SOCK_NAME
        /\ received env (path_append "/tmp" GUARDO_SOCK_NAME) CHALLENGE_RESPONSE
           = Ok (Some challenge)
        /\ syscall_num op1 = syscall_num op
        /\ Forall2 (resolves env) (args op) (args op1)
        /\ data = create_raw_msg CREDENTIAL_REQUEST
                    {| credential_request_op := op1;
                       credential_request_challenge := challenge |}
  | _ => True
  end.

End NegotiationEvents.

(** ** More runs *)

Module Replies.

(** [base] with the elevation daemon answering the one receive with
    [reply]. *)
Definition answering (reply : exn + (list byte * list Z)) (base : Env) : Env := {|
  syscall_no_intercept := syscall_no_intercept base;
  c_str := c_str base;
  mem_bytes := mem_bytes base;
  getenv := getenv base;
  openat_cwd := openat_cwd base;
  current_path := current_path base;
  read_symlink := read_symlink base;
  status_permissions := status_permissions base;
  connect_error := connect_error base;
  send_error := send_error base;
  peer_stream := peer_stream base;
  peer_recvmsg := fun _ => reply
|}.

(** The run of [Sample] in which everything succeeds. *)
Definition granted : Env :=
  Sample.env (- EACCES) Sample.APPROVED Sample.descriptor_granted [9].

Definition guardo : UnixSocket :=
  {| peer := Sample.guardo_addr; unread := [] |}.

End Replies.
(** * Properties *)

(** ** Integers and bytes *)

Lemma to_int_small z : - 2 ^ 31 <= z < 2 ^ 31 -> to_int z = z.
Proof.
  intros H. unfold to_int.
  rewrite Z.mod_small by lia. lia.
Qed.

Lemma to_uint32_small z : 0 <= z < 2 ^ 32 -> to_uint32 z = z.
Proof. intros H. unfold to_uint32. now rewrite Z.mod_small. Qed.

Lemma Z_of_byte_range b : 0 <= Z_of_byte b < 256.
Proof.
  unfold Z_of_byte. pose proof (Byte.to_N_bounded b). lia.
Qed.

Lemma Z_of_byte_of_Z z : Z_of_byte (byte_of_Z z) = z mod 256.
Proof.
  unfold byte_of_Z, Z_of_byte.
  pose proof (Z.mod_pos_bound z 256 ltac:(lia)) as Hb.
  destruct (Byte.of_N (Z.to_N (z mod 256))) as [b|] eqn:E.
  - apply Byte.to_of_N in E. rewrite E. lia.
  - apply Byte.of_N_None_iff in E. lia.
Qed.

Lemma load_be32_be32 v rest :
  0 <= v < 2 ^ 32 -> load_be32 (be32 v ++ rest) = Some v.
Proof.
  intros Hv. unfold be32. cbn [app load_be32].
  rewrite !Z_of_byte_of_Z. f_equal.
  change (2 ^ 24) with 16777216 in *. change (2 ^ 16) with 65536 in *.
  change (2 ^ 8) with 256 in *. change (2 ^ 32) with 4294967296 in *.
  assert (E1 : v / 16777216 = v / 65536 / 256)
    by (rewrite Z.div_div by lia; reflexivity).
  assert (E2 : v / 65536 = v / 256 / 256)
    by (rewrite Z.div_div by lia; reflexivity).
  pose proof (Z.div_mod v 256 ltac:(lia)).
  pose proof (Z.div_mod (v / 256) 256 ltac:(lia)).
  pose proof (Z.div_mod (v / 65536) 256 ltac:(lia)).
  pose proof (Z.mod_pos_bound v 256 ltac:(lia)).
  pose proof (Z.mod_pos_bound (v / 256) 256 ltac:(lia)).
  pose proof (Z.mod_pos_bound (v / 65536) 256 ltac:(lia)).
  assert (0 <= v / 16777216 < 256).
  { split; [apply Z.div_pos; lia | apply Z.div_lt_upper_bound; lia]. }
  rewrite (Z.mod_small (v / 16777216)) by lia.
  lia.
Qed.

Lemma world_eta w : w = {| w_result := w_result w; w_trace := w_trace w ++ [] |}.
Proof. destruct w; cbn. now rewrite app_nil_r. Qed.

Lemma quiet_ret {A} P (a : A) env : quiet P (ret a) env.
Proof. intros w. exists []. split; [apply world_eta | constructor]. Qed.

Lemma quiet_throw {A} P e env : quiet P (@throw A e) env.
Proof. intros w. exists []. split; [apply world_eta | constructor]. Qed.

Lemma quiet_undefined {A} P env : quiet P (@undefined A) env.
Proof. intros w. exists []. split; [apply world_eta | constructor]. Qed.

Lemma quiet_ask {A} P (f : Env -> A) env : quiet P (ask f) env.
Proof. intros w. exists []. split; [apply world_eta | constructor]. Qed.

Lemma quiet_emit (P : Event -> Prop) ev env : P ev -> quiet P (emit ev) env.
Proof. intros H w. exists [ev]. split; [reflexivity | repeat constructor; exact H]. Qed.

Lemma quiet_bind_reach {A B} P (m : M A) (f : A -> M B) env :
  quiet P m env ->
  (forall a w w', m env w = (Ok a, w') -> quiet P (f a) env) ->
  quiet P (bind m f) env.
Proof.
  intros Hm Hf w. unfold bind.
  destruct (Hm w) as (evs & E & HP).
  destruct (m env w) as [[a|e|] w1] eqn:Em; cbn in E; subst w1.
  - destruct (Hf a _ _ Em {| w_result := w_result w; w_trace := w_trace w ++ evs |})
      as (evs' & E' & HP').
    exists (evs ++ evs'). rewrite E'. cbn. rewrite app_assoc. split; [reflexivity|].
    apply Forall_app; split; assumption.
  - exists evs. split; [reflexivity | assumption].
  - exists evs. split; [reflexivity | assumption].
Qed.

Lemma quiet_bind {A B} P (m : M A) (f : A -> M B) env :
  quiet P m env -> (forall a, quiet P (f a) env) -> quiet P (bind m f) env.
Proof. intros Hm Hf. apply quiet_bind_reach; auto. Qed.

Lemma quiet_weaken {A} (P Q : Event -> Prop) (m : M A) env :
  (forall ev, P ev -> Q ev) -> quiet P m env -> quiet Q m env.
Proof.
  intros HPQ Hm w. destruct (Hm w) as (evs & E & HP).
  exists evs. split; [exact E|]. eapply Forall_impl; eauto.
Qed.

Lemma quiet_raise_or_return {A} P (r : exn + A) env :
  quiet P (raise_or_return r) env.
Proof. destruct r; [apply quiet_throw | apply quiet_ret]. Qed.

Lemma quiet_raise_if P (r : option exn) env : quiet P (raise_if r) env.
Proof. destruct r; [apply quiet_throw | apply quiet_ret]. Qed.

(** One step of a proof of [quiet]: peel a bind, close a leaf, or split on
    the scrutinee in head position. *)
Ltac quiet_step :=
  first
    [ apply quiet_ret | apply quiet_throw | apply quiet_undefined
    | apply quiet_ask | apply quiet_raise_or_return | apply quiet_raise_if
    | apply quiet_emit
    | apply quiet_bind; [ | intros ? ]
    | match goal with
      | |- quiet _ (match ?x with _ => _ end) _ => destruct x
      end ].

Ltac quiet_auto := repeat (quiet_step; cbn beta iota); try solve [cbn; auto].

(** ** The pieces of the filter are quiet *)

Lemma quiet_cerr (P : Event -> Prop) msg env :
  P (ev_cerr msg) -> quiet P (cerr msg) env.
Proof. apply quiet_emit. Qed.

Lemma quiet_duplicate_cwd (P : Event -> Prop) env :
  P ev_openat_cwd -> quiet P duplicate_cwd env.
Proof. intros H. unfold duplicate_cwd. quiet_auto. Qed.

Lemma quiet_marshal_arg (P : Event -> Prop) arg fd_cwd fds env :
  P ev_openat_cwd -> quiet P (marshal_arg arg fd_cwd fds) env.
Proof.
  intros H. unfold marshal_arg.
  destruct arg as [ | | | | [ | fd | ] | ]; try apply quiet_ret.
  destruct (fd =? AT_FDCWD).
  - apply quiet_bind; [destruct fd_cwd; [apply quiet_ret | now apply quiet_duplicate_cwd] |].
    intros ?. quiet_auto.
  - quiet_auto.
Qed.

Lemma quiet_marshal_args (P : Event -> Prop) l env :
  P ev_openat_cwd -> forall fd_cwd fds, quiet P (marshal_args l fd_cwd fds) env.
Proof.
  intros H. induction l as [|arg rest IH]; intros fd_cwd fds; cbn [marshal_args].
  - apply quiet_ret.
  - apply quiet_bind; [now apply quiet_marshal_arg |].
    intros [[arg' fd_cwd'] fds'].
    apply quiet_bind; [apply IH |].
    intros [[rest' fd_cwd''] fds'']. apply quiet_ret.
Qed.

Lemma quiet_marshal_fds (P : Event -> Prop) op fds env :
  P ev_openat_cwd -> quiet P (marshal_fds op fds) env.
Proof.
  intros H. unfold marshal_fds.
  apply quiet_bind; [now apply quiet_marshal_args |].
  intros [[a b] c]. apply quiet_ret.
Qed.

Lemma quiet_create_access_op (P : Event -> Prop) dir_fd path mode flags op env :
  quiet P (create_access_op dir_fd path mode flags op) env.
Proof. unfold create_access_op. quiet_auto. Qed.

Lemma quiet_connect (P : Event -> Prop) addr env :
  P (ev_connect addr) -> quiet P (connect addr) env.
Proof. intros H. unfold connect. quiet_auto. Qed.

Lemma quiet_sendmsg (P : Event -> Prop) socket data fds env :
  P (ev_sendmsg (peer socket) data fds) -> quiet P (sendmsg socket data fds) env.
Proof. intros H. unfold sendmsg. quiet_auto. Qed.

Lemma quiet_write (P : Event -> Prop) socket data env :
  P (ev_write (peer socket) data) -> quiet P (write socket data) env.
Proof. intros H. unfold write. quiet_auto. Qed.

Lemma quiet_read_full (P : Event -> Prop) fd n env :
  P (ev_read_full (peer fd) n) -> quiet P (read_full fd n) env.
Proof. intros H. unfold read_full. quiet_auto. Qed.

Lemma quiet_recvmsg (P : Event -> Prop) socket env :
  P (ev_recvmsg (peer socket)) -> quiet P (recvmsg socket) env.
Proof. intros H. unfold recvmsg. quiet_auto. Qed.

Lemma quiet_substr1 (P : Event -> Prop) packet env : quiet P (substr1 packet) env.
Proof. unfold substr1. quiet_auto. Qed.

Lemma quiet_read_expected_msg {T} `{MessageLite T} fd expected env :
  quiet reads_or_logs (read_expected_msg (T := T) fd expected) env.
Proof.
  unfold read_expected_msg.
  apply quiet_bind; [apply quiet_read_full; exact I |].
  intros [buf fd1]. destruct (load_be32 buf); [| apply quiet_undefined].
  apply quiet_bind; [apply quiet_read_full; exact I |].
  intros [packet fd2].
  destruct (negb _).
  - apply quiet_bind; [apply quiet_cerr; exact I | intros; apply quiet_ret].
  - apply quiet_bind; [apply quiet_substr1 |]. intros payload.
    destruct (ParseFromString payload).
    + apply quiet_ret.
    + apply quiet_bind; [apply quiet_cerr; exact I | intros; apply quiet_ret].
Qed.

Lemma quiet_read_expected_msg_with_fd {T} `{MessageLite T} socket expected env :
  quiet reads_or_logs (read_expected_msg_with_fd (T := T) socket expected) env.
Proof.
  unfold read_expected_msg_with_fd.
  apply quiet_bind; [apply quiet_recvmsg; exact I |].
  intros [data fds]. destruct (load_be32 data); [| apply quiet_undefined].
  destruct (negb _).
  { apply quiet_bind; [apply quiet_cerr; exact I | intros; apply quiet_ret]. }
  destruct (negb _).
  { apply quiet_bind; [apply quiet_cerr; exact I | intros; apply quiet_ret]. }
  destruct (_ <? _)%nat; [apply quiet_undefined |].
  destruct (ParseFromString _).
  - apply quiet_ret.
  - apply quiet_bind; [apply quiet_cerr; exact I | intros; apply quiet_ret].
Qed.

Lemma quiet_user_runtime_dir (P : Event -> Prop) env : quiet P user_runtime_dir env.
Proof. unfold user_runtime_dir. quiet_auto. Qed.

Lemma guarded_ret x env : guarded (ret x) env.
Proof. intros w. right. reflexivity. Qed.

Lemma guarded_bind {A} (m : M A) (f : A -> M hook_exit) env :
  quiet (fun _ => True) m env -> (forall a, guarded (f a) env) ->
  guarded (bind m f) env.
Proof.
  intros Hm Hf w. unfold bind.
  destruct (Hm w) as (evs & E & _).
  destruct (m env w) as [[a|e|] w1]; cbn in E; subst w1; cbn.
  - destruct (Hf a {| w_result := w_result w; w_trace := w_trace w ++ evs |}) as [L|R].
    + left. exact L.
    + right. rewrite R. reflexivity.
  - right. reflexivity.
  - right. reflexivity.
Qed.

Lemma guarded_set_result v env :
  guarded (set_result v ;; ret exit_result_set) env.
Proof. intros w. left. reflexivity. Qed.

Lemma quiet_any {A} (P : Event -> Prop) (m : M A) env :
  quiet P m env -> quiet (fun _ => True) m env.
Proof. apply quiet_weaken. auto. Qed.

Lemma connect_run addr env w :
  connect addr env w =
  (match connect_error env addr with
   | Some e => Throw e
   | None => Ok (fresh_socket env addr)
   end,
   {| w_result := w_result w; w_trace := w_trace w ++ [ev_connect addr] |}).
Proof.
  unfold connect, bind, emit, ask, raise_if, throw, ret, fresh_socket.
  destruct (connect_error env addr); reflexivity.
Qed.

Lemma user_runtime_dir_run env w :
  user_runtime_dir env w =
  (match runtime_dir_of env with
   | Some d => Ok d
   | None => Undefined
   end, w).
Proof.
  unfold user_runtime_dir, runtime_dir_of, bind, ask, ret, undefined.
  destruct (getenv env "XDG_RUNTIME_DIR"); [reflexivity |].
  destruct (getenv env "HOME"); reflexivity.
Qed.

Lemma write_run socket data env w :
  write socket data env w =
  (match send_error env (peer socket) data with
   | Some e => Throw e
   | None => Ok tt
   end,
   {| w_result := w_result w;
      w_trace := w_trace w ++ [ev_write (peer socket) data] |}).
Proof.
  unfold write, bind, emit, ask, raise_if, throw, ret.
  destruct (send_error env (peer socket) data); reflexivity.
Qed.

Lemma sendmsg_run socket data fds env w :
  sendmsg socket data fds env w =
  (match send_error env (peer socket) data with
   | Some e => Throw e
   | None => Ok tt
   end,
   {| w_result := w_result w;
      w_trace := w_trace w ++ [ev_sendmsg (peer socket) data fds] |}).
Proof.
  unfold sendmsg, bind, emit, ask, raise_if, throw, ret.
  destruct (send_error env (peer socket) data); reflexivity.
Qed.

(** ** Outcomes do not depend on the world *)

Lemma oblivious_ret {A} (a : A) env : oblivious (ret a) env.
Proof. intros w w'. reflexivity. Qed.

Lemma oblivious_throw {A} e env : oblivious (@throw A e) env.
Proof. intros w w'. reflexivity. Qed.

Lemma oblivious_undefined {A} env : oblivious (@undefined A) env.
Proof. intros w w'. reflexivity. Qed.

Lemma oblivious_emit ev env : oblivious (emit ev) env.
Proof. intros w w'. reflexivity. Qed.

Lemma oblivious_bind {A B} (m : M A) (f : A -> M B) env :
  oblivious m env -> (forall a, oblivious (f a) env) -> oblivious (bind m f) env.
Proof.
  intros Hm Hf w w'. unfold bind. specialize (Hm w w').
  destruct (m env w) as [[a|e|] w1], (m env w') as [[a'|e'|] w1'];
    cbn [fst] in Hm; inversion Hm; subst; cbn [fst]; try reflexivity.
  apply Hf.
Qed.

Lemma oblivious_read_full fd n env : oblivious (read_full fd n) env.
Proof.
  unfold read_full.
  apply oblivious_bind; [apply oblivious_emit |]. intros _.
  destruct (_ || _); [apply oblivious_throw | apply oblivious_ret].
Qed.

Lemma oblivious_read_expected_msg {T} `{MessageLite T} fd expected env :
  oblivious (read_expected_msg (T := T) fd expected) env.
Proof.
  unfold read_expected_msg.
  apply oblivious_bind; [apply oblivious_read_full |].
  intros [buf fd1]. destruct (load_be32 buf); [| apply oblivious_undefined].
  apply oblivious_bind; [apply oblivious_read_full |].
  intros [packet fd2].
  destruct (negb _).
  - apply oblivious_bind; [apply oblivious_emit | intros; apply oblivious_ret].
  - apply oblivious_bind.
    { destruct packet; [apply oblivious_throw | apply oblivious_ret]. }
    intros payload. destruct (ParseFromString payload).
    + apply oblivious_ret.
    + apply oblivious_bind; [apply oblivious_emit | intros; apply oblivious_ret].
Qed.

(** ** Send events of a computation *)

Lemma filter_quiet evs :
  Forall (fun ev => is_sendmsg ev = false) evs -> filter is_sendmsg evs = [].
Proof.
  induction 1 as [|ev evs Hev _ IH]; [reflexivity |].
  cbn. rewrite Hev. exact IH.
Qed.

Lemma sends_quiet {A} (m : M A) env :
  quiet (fun ev => is_sendmsg ev = false) m env ->
  sends (fun s => s = []) m env.
Proof.
  intros Q w. destruct (Q w) as (evs & E & F).
  exists evs. split; [exact E | now apply filter_quiet].
Qed.

Lemma sends_weaken {A} (S S' : list Event -> Prop) (m : M A) env :
  (forall s, S s -> S' s) -> sends S m env -> sends S' m env.
Proof.
  intros HS Hm w. destruct (Hm w) as (evs & E & F).
  exists evs. split; [exact E | auto].
Qed.

Lemma sends_bind_quiet {A B} S (m : M A) (f : A -> M B) env :
  quiet (fun ev => is_sendmsg ev = false) m env ->
  (forall a w w', m env w = (Ok a, w') -> sends S (f a) env) ->
  S [] ->
  sends S (bind m f) env.
Proof.
  intros Hm Hf HS w. unfold bind.
  destruct (Hm w) as (e1 & E1 & F1).
  destruct (m env w) as [[a|e|] w1] eqn:Em; cbn [snd] in E1; subst w1.
  - destruct (Hf a _ _ Em {| w_result := w_result w; w_trace := w_trace w ++ e1 |})
      as (e2 & E2 & F2).
    exists (e1 ++ e2). rewrite E2. cbn [w_result w_trace].
    rewrite app_assoc. split; [reflexivity |].
    rewrite filter_app, (filter_quiet F1). exact F2.
  - exists e1. split; [reflexivity |]. now rewrite (filter_quiet F1).
  - exists e1. split; [reflexivity |]. now rewrite (filter_quiet F1).
Qed.

Lemma sends_bind_sendmsg {B} socket data fds (f : unit -> M B) env :
  (forall u, sends (fun s => s = []) (f u) env) ->
  sends (fun s => s = [ev_sendmsg (peer socket) data fds])
    (bind (sendmsg socket data fds) f) env.
Proof.
  intros Hf w. unfold bind. rewrite sendmsg_run.
  destruct (send_error env (peer socket) data) as [e|].
  - exists [ev_sendmsg (peer socket) data fds]. split; reflexivity.
  - destruct (Hf tt {| w_result := w_result w;
                       w_trace := w_trace w ++ [ev_sendmsg (peer socket) data fds] |})
      as (e2 & E2 & F2).
    exists (ev_sendmsg (peer socket) data fds :: e2).
    rewrite E2. cbn [w_result w_trace]. rewrite <- app_assoc.
    split; [reflexivity |]. cbn. now rewrite F2.
Qed.

Section ProtocolFacts.

Variables Challenge Credential : Type.
Variables CHALLENGE_REQUEST CHALLENGE_RESPONSE : byte.
Variables CREDENTIAL_REQUEST CREDENTIAL_RESPONSE : byte.
Variables ELEVATION_REQUEST ELEVATION_RESPONSE : byte.
Variable APPROVED : Z.
Context {ChallengeRequest_msg : MessageLite ChallengeRequest}.
Context {Challenge_msg : MessageLite Challenge}.
Context {CredentialRequest_msg : MessageLite (CredentialRequest Challenge)}.
Context {CredentialResponse_msg : MessageLite (CredentialResponse Credential)}.
Context {ElevationRequest_msg : MessageLite (ElevationRequest Credential)}.
Context {ElevationResponse_msg : MessageLite ElevationResponse}.

Local Abbreviation get_credential' :=
  (get_credential CREDENTIAL_REQUEST CREDENTIAL_RESPONSE APPROVED).
Local Abbreviation negotiate' :=
  (negotiate CHALLENGE_REQUEST CHALLENGE_RESPONSE CREDENTIAL_REQUEST
     CREDENTIAL_RESPONSE ELEVATION_REQUEST ELEVATION_RESPONSE APPROVED).
Local Abbreviation hook' :=
  (hook CHALLENGE_REQUEST CHALLENGE_RESPONSE CREDENTIAL_REQUEST
     CREDENTIAL_RESPONSE ELEVATION_REQUEST ELEVATION_RESPONSE APPROVED).
Local Abbreviation safe_hook' :=
  (safe_hook CHALLENGE_REQUEST CHALLENGE_RESPONSE CREDENTIAL_REQUEST
     CREDENTIAL_RESPONSE ELEVATION_REQUEST ELEVATION_RESPONSE APPROVED).

Lemma quiet_get_credential op (challenge : Challenge) env :
  quiet (fun ev => is_sendmsg ev = false) (get_credential' op challenge) env.
Proof.
  unfold get_credential.
  apply quiet_bind; [apply quiet_user_runtime_dir |]. intros dir.
  apply quiet_bind; [apply quiet_connect; reflexivity |]. intros socket.
  apply quiet_bind; [apply quiet_write; reflexivity |]. intros _.
  apply quiet_bind.
  { eapply quiet_weaken; [| apply quiet_read_expected_msg].
    intros [] Hev; cbn in *; tauto. }
  intros [[response|] socket'].
  - destruct (negb _).
    + apply quiet_bind; [apply quiet_cerr; reflexivity | intros; apply quiet_ret].
    + apply quiet_ret.
  - apply quiet_bind; [apply quiet_cerr; reflexivity | intros; apply quiet_ret].
Qed.

Lemma quiet_hook_switch n a0 a1 a2 a3 op env :
  quiet (fun ev => is_network ev = false) (hook_switch n a0 a1 a2 a3 op) env.
Proof.
  unfold hook_switch.
  repeat match goal with
         | |- quiet _ (if ?c then _ else _) _ => destruct c
         end;
    repeat first
      [ apply quiet_ret | apply quiet_ask | apply quiet_create_access_op
      | apply quiet_cerr; reflexivity
      | apply quiet_bind; [ | intros ? ] ].
Qed.

Lemma guarded_negotiate op fds env : guarded (negotiate' op fds) env.
Proof.
  unfold negotiate.
  apply guarded_bind; [apply quiet_marshal_fds; exact I |].
  intros [[op' fds'] fd_cwd].
  apply guarded_bind; [apply quiet_connect; exact I |]. intros socket.
  apply guarded_bind; [apply quiet_sendmsg; exact I |]. intros _.
  apply guarded_bind; [eapply quiet_any, quiet_read_expected_msg |].
  intros [[challenge|] socket'].
  2: { apply guarded_bind; [apply quiet_cerr; exact I | intros; apply guarded_ret]. }
  apply guarded_bind; [eapply quiet_any, quiet_get_credential |].
  intros [credential|]; [| apply guarded_ret].
  apply guarded_bind; [apply quiet_sendmsg; exact I |]. intros _.
  apply guarded_bind; [eapply quiet_any, quiet_read_expected_msg_with_fd |].
  intros [[response|] rfds]; [| apply guarded_ret].
  destruct (is_result_fd response); [| apply guarded_set_result].
  destruct rfds as [|fd0 rest]; [| apply guarded_set_result].
  apply guarded_bind; [apply quiet_cerr; exact I | intros; apply guarded_ret].
Qed.

Lemma guarded_hook n a0 a1 a2 a3 a4 a5 env :
  guarded (hook' n a0 a1 a2 a3 a4 a5) env.
Proof.
  unfold hook.
  apply guarded_bind; [eapply quiet_any, quiet_hook_switch |].
  intros [[[] op]|]; cbn [negb]; try apply guarded_ret.
  apply guarded_negotiate.
Qed.

(** [safe_hook] on a number that gets past its switch, as a function of
    what [hook] does. *)
Lemma safe_hook_unfold n a0 a1 a2 a3 a4 a5 env w :
  safe_hook_switch n = true ->
  safe_hook' n a0 a1 a2 a3 a4 a5 env w =
  let real := syscall_no_intercept env n a0 a1 a2 a3 a4 a5 in
  let w1 := after_real_syscall env n a0 a1 a2 a3 a4 a5 w in
  if negb (real =? - EACCES) && negb (real =? - EPERM) then (Ok 0, w1)
  else
    match hook' n a0 a1 a2 a3 a4 a5 env w1 with
    | (Ok _, w2) => (Ok 0, w2)
    | (Throw e, w2) =>
        (Ok 0, {| w_result := w_result w2;
                  w_trace := w_trace w2 ++ [catch_event e] |})
    | (Undefined, w2) => (Undefined, w2)
    end.
Proof.
  intros Hsw. unfold safe_hook. rewrite Hsw. cbn [negb].
  unfold bind at 1. cbn [emit].
  unfold bind at 1. cbn [ask].
  unfold bind at 1. cbn [set_result w_result w_trace].
  fold (after_real_syscall env n a0 a1 a2 a3 a4 a5 w).
  cbv zeta.
  destruct (negb _ && negb _); [reflexivity |].
  unfold bind at 1. unfold try_catch. unfold bind at 1.
  destruct (hook' n a0 a1 a2 a3 a4 a5 env _) as [[x|e|] w2]; cbn [ret].
  - reflexivity.
  - destruct e; reflexivity.
  - reflexivity.
Qed.


Lemma not_denied_test r :
  ~ permission_denied r -> negb (r =? - EACCES) && negb (r =? - EPERM) = true.
Proof.
  unfold permission_denied. intros H.
  destruct (Z.eqb_spec r (- EACCES)); [tauto |].
  destruct (Z.eqb_spec r (- EPERM)); [tauto |]. reflexivity.
Qed.

Lemma denied_test r :
  permission_denied r -> negb (r =? - EACCES) && negb (r =? - EPERM) = false.
Proof.
  intros [-> | ->]; reflexivity.
Qed.

(** C3. For a syscall number that gets past the switch of [safe_hook], the
    real syscall is made first; when its result is neither [-EACCES] nor
    [-EPERM], [safe_hook] returns 0, the result cell holds the real result,
    and the trace holds the real syscall and nothing else: no encoder, no
    resolver, no negotiation ran. *)
Theorem real_result_stands env n a0 a1 a2 a3 a4 a5 w :
  safe_hook_switch n = true ->
  ~ permission_denied (syscall_no_intercept env n a0 a1 a2 a3 a4 a5) ->
  safe_hook' n a0 a1 a2 a3 a4 a5 env w
  = (Ok 0, after_real_syscall env n a0 a1 a2 a3 a4 a5 w).
Proof.
  intros Hsw Hreal.
  rewrite safe_hook_unfold by exact Hsw. cbv zeta.
  rewrite not_denied_test by exact Hreal. reflexivity.
Qed.

(** C1. For a syscall number that gets past the switch of [safe_hook] and
    a permission-denied real result: whenever [hook] ends in anything but
    the elevated exit (an early return at any step, or an exception),
    [safe_hook] returns 0 and the result cell holds the value the real
    syscall returned. *)
Theorem abort_leaves_real_result env n a0 a1 a2 a3 a4 a5 w :
  safe_hook_switch n = true ->
  permission_denied (syscall_no_intercept env n a0 a1 a2 a3 a4 a5) ->
  aborted (fst (hook' n a0 a1 a2 a3 a4 a5 env
                  (after_real_syscall env n a0 a1 a2 a3 a4 a5 w))) ->
  exists w',
    safe_hook' n a0 a1 a2 a3 a4 a5 env w = (Ok 0, w')
    /\ w_result w' = syscall_no_intercept env n a0 a1 a2 a3 a4 a5.
Proof.
  intros Hsw Hreal Hab.
  rewrite safe_hook_unfold by exact Hsw. cbv zeta.
  rewrite denied_test by exact Hreal.
  pose proof (guarded_hook n a0 a1 a2 a3 a4 a5 env
                (after_real_syscall env n a0 a1 a2 a3 a4 a5 w)) as G.
  destruct (hook' n a0 a1 a2 a3 a4 a5 env _) as [[x|e|] w2];
    cbn [fst snd] in *.
  - eexists; split; [reflexivity |].
    destruct G as [G | G]; [| exact G].
    inversion G; subst x. destruct Hab.
  - eexists; split; [reflexivity |]. cbn.
    destruct G as [G | G]; [discriminate | exact G].
  - destruct Hab.
Qed.

(** Closes the branches of a run that ended at another [return]. *)
Ltac early_exit H :=
  solve [ discriminate H
        | unfold bind, cerr, emit, ret in H; discriminate H ].

(** The only way to the elevated exit: every step of the negotiation
    succeeded. The challenge was read, the agent approved, the elevation
    response was read, and a descriptor came with it if it announced one. *)
Lemma negotiate_elevated op fds env w w' :
  negotiate' op fds env w = (Ok exit_result_set, w') ->
  exists op1 fds1 fd_cwd w1 socket w2 w3 challenge socket' w4 credential w5 w6
         response rfds w7,
    marshal_fds op fds env w = (Ok (op1, fds1, fd_cwd), w1)
    /\ connect (path_append "/tmp" GUARDO_SOCK_NAME) env w1 = (Ok socket, w2)
    /\ sendmsg socket
         (create_raw_msg CHALLENGE_REQUEST Build_ChallengeRequest) [] env w2
       = (Ok tt, w3)
    /\ read_expected_msg socket CHALLENGE_RESPONSE env w3
       = (Ok (Some challenge, socket'), w4)
    /\ get_credential' op1 challenge env w4 = (Ok (Some credential), w5)
    /\ sendmsg socket'
         (create_raw_msg ELEVATION_REQUEST
            {| elevation_request_op := op1;
               elevation_request_credential := credential |}) fds1 env w5
       = (Ok tt, w6)
    /\ read_expected_msg_with_fd socket' ELEVATION_RESPONSE env w6
       = (Ok (Some response, rfds), w7)
    /\ (is_result_fd response = true -> rfds <> [])
    /\ w' = {| w_result := if is_result_fd response then hd 0 rfds
                           else result response;
               w_trace := w_trace w7 |}.
Proof.
  intros Hrun. unfold negotiate in Hrun.
  unfold bind at 1 in Hrun.
  destruct (marshal_fds op fds env w) as [[[[op1 fds1] fd_cwd]|e|] w1] eqn:E1;
    try early_exit Hrun.
  unfold bind at 1 in Hrun.
  destruct (connect _ env w1) as [[socket|e|] w2] eqn:E2; try early_exit Hrun.
  unfold bind at 1 in Hrun.
  destruct (sendmsg socket _ [] env w2) as [[[]|e|] w3] eqn:E3; try early_exit Hrun.
  unfold bind at 1 in Hrun.
  destruct (read_expected_msg socket CHALLENGE_RESPONSE env w3)
    as [[[[challenge|] socket']|e|] w4] eqn:E4; try early_exit Hrun.
  unfold bind at 1 in Hrun.
  destruct (get_credential' op1 challenge env w4)
    as [[[credential|]|e|] w5] eqn:E5; try early_exit Hrun.
  unfold bind at 1 in Hrun.
  destruct (sendmsg socket' _ fds1 env w5) as [[[]|e|] w6] eqn:E6; try early_exit Hrun.
  unfold bind at 1 in Hrun.
  destruct (read_expected_msg_with_fd socket' ELEVATION_RESPONSE env w6)
    as [[[[response|] rfds]|e|] w7] eqn:E7; try early_exit Hrun.
  exists op1, fds1, fd_cwd, w1, socket, w2, w3, challenge, socket', w4,
    credential, w5, w6, response, rfds, w7.
  repeat (split; [first [assumption | reflexivity] |]).
  destruct (is_result_fd response).
  - destruct rfds as [|fd0 rest]; [early_exit Hrun |].
    inversion Hrun; subst. split; [discriminate | reflexivity].
  - inversion Hrun; subst. split; [discriminate | reflexivity].
Qed.

(** C4. [safe_hook] never ends by throwing; and when [hook] throws [e],
    whatever [e] is, [safe_hook] logs it, returns 0, and the result cell
    still holds the real result stored before [hook] was called. *)
Theorem no_exception_escapes env n a0 a1 a2 a3 a4 a5 w :
  (forall e, fst (safe_hook' n a0 a1 a2 a3 a4 a5 env w) <> Throw e)
  /\ (forall e w2,
        safe_hook_switch n = true ->
        permission_denied (syscall_no_intercept env n a0 a1 a2 a3 a4 a5) ->
        hook' n a0 a1 a2 a3 a4 a5 env
          (after_real_syscall env n a0 a1 a2 a3 a4 a5 w) = (Throw e, w2) ->
        safe_hook' n a0 a1 a2 a3 a4 a5 env w
        = (Ok 0, {| w_result := syscall_no_intercept env n a0 a1 a2 a3 a4 a5;
                    w_trace := w_trace w2 ++ [catch_event e] |})).
Proof.
  split.
  - intros e. destruct (safe_hook_switch n) eqn:Hsw.
    + rewrite safe_hook_unfold by exact Hsw. cbv zeta.
      destruct (negb _ && negb _); [discriminate |].
      destruct (hook' n a0 a1 a2 a3 a4 a5 env _) as [[x|e'|] w2]; discriminate.
    + unfold safe_hook. rewrite Hsw. discriminate.
  - intros e w2 Hsw Hreal Hhook.
    rewrite safe_hook_unfold by exact Hsw. cbv zeta.
    rewrite denied_test by exact Hreal.
    pose proof (guarded_hook n a0 a1 a2 a3 a4 a5 env
                  (after_real_syscall env n a0 a1 a2 a3 a4 a5 w)) as G.
    rewrite Hhook in *. cbn [fst snd] in G.
    destruct G as [G | G]; [discriminate |].
    rewrite G. reflexivity.
Qed.

(** C2, at [SYS_faccessat]. [hook] has a case for [SYS_faccessat] and asks
    for the two switches to be kept in sync, but the switch of [safe_hook]
    has none: the filter declines the call, returns 1 and touches nothing. *)
Theorem safe_hook_declines_faccessat env a0 a1 a2 a3 a4 a5 w :
  safe_hook_switch SYS_faccessat = false
  /\ safe_hook' SYS_faccessat a0 a1 a2 a3 a4 a5 env w = (Ok 1, w).
Proof. split; reflexivity. Qed.

(** The numbers that get past the switch of [safe_hook] are seven. *)
Lemma safe_hook_switch_spec n :
  safe_hook_switch n = true <->
  In n [SYS_open; SYS_openat; SYS_unlink; SYS_unlinkat; SYS_access;
        SYS_socket; SYS_bind].
Proof.
  unfold safe_hook_switch. cbn [In].
  repeat match goal with
         | |- context [?a =? ?b] => destruct (Z.eqb_spec a b)
         end; split; intros H; try discriminate; try tauto.
  all: intuition congruence.
Qed.

(** Every other number is declined: 1 is returned and nothing is done. *)
Lemma safe_hook_declines n a0 a1 a2 a3 a4 a5 env w :
  safe_hook_switch n = false ->
  safe_hook' n a0 a1 a2 a3 a4 a5 env w = (Ok 1, w).
Proof. intros H. unfold safe_hook. rewrite H. reflexivity. Qed.

(** The switch of [hook] knows eight numbers: the seven and [SYS_faccessat]. *)
Lemma hook_switch_default n a0 a1 a2 a3 op env w :
  fst (hook_switch n a0 a1 a2 a3 op env w) = Ok None <->
  ~ In n [SYS_open; SYS_openat; SYS_unlink; SYS_unlinkat; SYS_access;
          SYS_faccessat; SYS_socket; SYS_bind].
Proof.
  unfold hook_switch. cbn [In].
  repeat match goal with
         | |- context [?a =? ?b] => destruct (Z.eqb_spec a b)
         end.
  all: split; intros H.
  all: try solve [intuition congruence].
  all: try solve [reflexivity].
  all: exfalso; revert H; unfold bind, ask, ret, create_access_op, raise_or_return, throw.
  all: repeat match goal with
              | |- context [match ?x with _ => _ end] => destruct x
              end; cbn; discriminate.
Qed.

Lemma create_access_op_skips env path p dir_fd flags op w :
  status_permissions env path = inr p ->
  Z.land p owner_exec = perms_none ->
  Z.land p group_exec = perms_none ->
  Z.land p others_exec = perms_none ->
  create_access_op dir_fd path X_OK flags op env w = (Ok (false, op), w).
Proof.
  intros Hst Ho Hg Hx.
  unfold create_access_op, bind, ask, raise_or_return, ret.
  rewrite Z.eqb_refl, Hst, Ho, Hg, Hx. reflexivity.
Qed.

(** C7. When the mode of an access check is [X_OK] and the status of the
    path shows none of the three execute bits, [create_access_op] returns
    false and adds nothing to the operation. [hook] then takes its
    [should_hook] exit at once, for [SYS_access] and for [SYS_faccessat]
    alike, without any event. The whole filter makes no network request:
    for [SYS_access] its trace holds the real syscall only and the result
    cell holds the real result; for [SYS_faccessat] it declines. *)
Theorem execute_check_not_elevated env path p w :
  status_permissions env path = inr p ->
  Z.land p owner_exec = perms_none ->
  Z.land p group_exec = perms_none ->
  Z.land p others_exec = perms_none ->
  (forall dir_fd flags op,
      create_access_op dir_fd path X_OK flags op env w = (Ok (false, op), w))
  /\ (forall a0 a1 a2 a3 a4 a5,
        c_str env a0 = path -> to_int a1 = X_OK ->
        hook' SYS_access a0 a1 a2 a3 a4 a5 env w = (Ok exit_should_not_hook, w)
        /\ safe_hook' SYS_access a0 a1 a2 a3 a4 a5 env w
           = (Ok 0, after_real_syscall env SYS_access a0 a1 a2 a3 a4 a5 w))
  /\ (forall a0 a1 a2 a3 a4 a5,
        c_str env a1 = path -> to_int a2 = X_OK ->
        hook' SYS_faccessat a0 a1 a2 a3 a4 a5 env w = (Ok exit_should_not_hook, w)
        /\ safe_hook' SYS_faccessat a0 a1 a2 a3 a4 a5 env w = (Ok 1, w)).
Proof.
  intros Hst Ho Hg Hx.
  assert (Hskip : forall dir_fd flags op w',
             create_access_op dir_fd path X_OK flags op env w' = (Ok (false, op), w'))
    by (intros; eapply create_access_op_skips; eassumption).
  assert (Hhook : forall a0 a1 a2 a3 a4 a5 w',
             c_str env a0 = path -> to_int a1 = X_OK ->
             hook' SYS_access a0 a1 a2 a3 a4 a5 env w' = (Ok exit_should_not_hook, w')).
  { intros a0 a1 a2 a3 a4 a5 w' Hp Hm.
    unfold hook, hook_switch.
    change (SYS_access =? SYS_open) with false.
    change (SYS_access =? SYS_openat) with false.
    change (SYS_access =? SYS_unlink) with false.
    change (SYS_access =? SYS_unlinkat) with false.
    change (SYS_access =? SYS_access) with true.
    cbv iota. unfold bind at 1. unfold bind at 1. cbn [ask].
    unfold bind at 1. rewrite Hp, Hm, Hskip. reflexivity. }
  split; [intros; apply Hskip |]. split.
  - intros a0 a1 a2 a3 a4 a5 Hp Hm. split; [now apply Hhook |].
    rewrite safe_hook_unfold by reflexivity. cbv zeta.
    destruct (negb _ && negb _); [reflexivity |].
    rewrite Hhook by assumption. reflexivity.
  - intros a0 a1 a2 a3 a4 a5 Hp Hm. split; [| reflexivity].
    unfold hook, hook_switch.
    change (SYS_faccessat =? SYS_open) with false.
    change (SYS_faccessat =? SYS_openat) with false.
    change (SYS_faccessat =? SYS_unlink) with false.
    change (SYS_faccessat =? SYS_unlinkat) with false.
    change (SYS_faccessat =? SYS_access) with false.
    change (SYS_faccessat =? SYS_faccessat) with true.
    cbv iota. unfold bind at 1. unfold bind at 1. cbn [ask].
    unfold bind at 1. rewrite Hp, Hm, Hskip. reflexivity.
Qed.

(** A mode that asks for more than execute is not screened: with
    [R_OK | X_OK] the encoder goes ahead whatever the permission bits. *)
Lemma create_access_op_other_mode env dir_fd path mode flags op w :
  mode <> X_OK ->
  create_access_op dir_fd path mode flags op env w
  = (Ok (true, {| syscall_num := syscall_num op;
                  args := args op ++ [dir_fd_arg (kFd dir_fd); string_arg path;
                                      int_arg mode; int_arg flags] |}), w).
Proof.
  intros Hm. unfold create_access_op, bind, ret.
  destruct (Z.eqb_spec mode X_OK); [contradiction |].
  unfold add_args. cbn. rewrite <- !app_assoc. reflexivity.
Qed.

(** C10. [user_runtime_dir] takes [XDG_RUNTIME_DIR], falls back to [HOME],
    and is undefined when neither is set, and so is [get_credential]. When
    it does return a directory, the first thing [get_credential] does is to
    connect to that directory's [.agent-guard-sock]. *)
Theorem runtime_dir_precondition env w :
  (forall d, getenv env "XDG_RUNTIME_DIR" = Some d ->
             user_runtime_dir env w = (Ok d, w))
  /\ (forall d, getenv env "XDG_RUNTIME_DIR" = None ->
                getenv env "HOME" = Some d ->
                user_runtime_dir env w = (Ok d, w))
  /\ (getenv env "XDG_RUNTIME_DIR" = None -> getenv env "HOME" = None ->
      user_runtime_dir env w = (Undefined, w)
      /\ forall op challenge,
           get_credential' op challenge env w = (Undefined, w))
  /\ (forall d op challenge,
        user_runtime_dir env w = (Ok d, w) ->
        exists r rest,
          get_credential' op challenge env w
          = (r, {| w_result := w_result w;
                   w_trace := w_trace w
                     ++ ev_connect (path_append d AGENT_GUARD_SOCK_NAME) :: rest |})).
Proof.
  split; [| split; [| split]].
  - intros d Hx. rewrite user_runtime_dir_run. unfold runtime_dir_of.
    rewrite Hx. reflexivity.
  - intros d Hx Hh. rewrite user_runtime_dir_run. unfold runtime_dir_of.
    rewrite Hx, Hh. reflexivity.
  - intros Hx Hh.
    assert (E : user_runtime_dir env w = (Undefined, w)).
    { rewrite user_runtime_dir_run. unfold runtime_dir_of.
      rewrite Hx, Hh. reflexivity. }
    split; [exact E |].
    intros op challenge. unfold get_credential. unfold bind at 1.
    rewrite E. reflexivity.
  - intros d op challenge Hd.
    unfold get_credential. unfold bind at 1. rewrite Hd.
    match goal with
    | |- context [bind (connect ?a) ?k] => set (k1 := k) in *
    end.
    unfold bind at 1. rewrite connect_run.
    destruct (connect_error env _) as [e|].
    + exists (Throw e), []. reflexivity.
    + assert (Qk1 : quiet (fun _ => True)
                      (k1 (fresh_socket env (path_append d AGENT_GUARD_SOCK_NAME))) env).
      { subst k1. cbv beta.
        apply quiet_bind; [apply quiet_write; exact I |]. intros _.
        apply quiet_bind; [eapply quiet_any, quiet_read_expected_msg |].
        intros [[response|] socket'].
        - destruct (negb _).
          + apply quiet_bind; [apply quiet_cerr; exact I | intros; apply quiet_ret].
          + apply quiet_ret.
        - apply quiet_bind; [apply quiet_cerr; exact I | intros; apply quiet_ret]. }
      destruct (Qk1 (snd (connect (path_append d AGENT_GUARD_SOCK_NAME) env w)))
        as (evs & E & _).
      rewrite connect_run in E. cbn [snd w_result w_trace] in E.
      destruct (k1 _ env _) as [r w2]. cbn [snd w_result w_trace] in E. subst w2.
      exists r, evs. rewrite <- app_assoc. reflexivity.
Qed.

Section Denied.

Variable env : Env.
Variable dir : string.
Variable response : CredentialResponse Credential.

Let agent_addr : string := path_append dir AGENT_GUARD_SOCK_NAME.
Let guardo_addr : string := path_append "/tmp" GUARDO_SOCK_NAME.
Let challenge_frame : list byte :=
  create_raw_msg CHALLENGE_REQUEST Build_ChallengeRequest.

Hypothesis runtime_dir : runtime_dir_of env = Some dir.
Hypothesis agent_answer :
  received env agent_addr CREDENTIAL_RESPONSE = Ok (Some response).
Hypothesis not_approved : status response <> APPROVED.

Lemma agent_answer_at s w :
  s = fresh_socket env agent_addr ->
  exists s' w',
    read_expected_msg s CREDENTIAL_RESPONSE env w = (Ok (Some response, s'), w').
Proof.
  intros ->. pose proof agent_answer as R. unfold received in R.
  rewrite (oblivious_read_expected_msg
             (fresh_socket env agent_addr) CREDENTIAL_RESPONSE env _ w) in R.
  destruct (read_expected_msg (fresh_socket env agent_addr) CREDENTIAL_RESPONSE env w)
    as [[[m s']|e|] w'] ; cbn [fst] in R; try discriminate.
  inversion R; subst m. eauto.
Qed.

Lemma get_credential_denied op (challenge : Challenge) w :
  match fst (get_credential' op challenge env w) with
  | Ok None => True
  | Ok (Some _) => False
  | Throw e =>
      connect_error env agent_addr = Some e
      \/ exists data, send_error env agent_addr data = Some e
  | Undefined => False
  end.
Proof.
  unfold get_credential. unfold bind at 1.
  rewrite user_runtime_dir_run, runtime_dir.
  unfold bind at 1. rewrite connect_run. fold agent_addr.
  destruct (connect_error env agent_addr) as [e|]; [left; reflexivity |].
  unfold bind at 1. rewrite write_run. cbn [peer fresh_socket].
  destruct (send_error env agent_addr _) as [e|] eqn:Es; [right; eauto |].
  unfold bind at 1.
  match goal with
  | |- context [read_expected_msg ?s _ env ?w1] =>
      destruct (@agent_answer_at s w1 eq_refl) as (s' & w' & ->)
  end.
  destruct (Z.eqb_spec (status response) APPROVED) as [E | _];
    [contradiction | reflexivity].
Qed.

Lemma negotiate_denied op fds :
  sends (fun s => s = [] \/ s = [ev_sendmsg guardo_addr challenge_frame []])
    (negotiate' op fds) env.
Proof.
  unfold negotiate.
  apply sends_bind_quiet; [apply quiet_marshal_fds; reflexivity | | now left].
  intros [[op' fds'] fd_cwd] _ _ _.
  apply sends_bind_quiet; [apply quiet_connect; reflexivity | | now left].
  intros socket w w' Hc. rewrite connect_run in Hc.
  assert (Hs : socket = fresh_socket env guardo_addr).
  { destruct (connect_error env _); inversion Hc; reflexivity. }
  subst socket. clear Hc w w'.
  eapply sends_weaken; [| apply sends_bind_sendmsg].
  { cbn [peer fresh_socket]. intros s ->. now right. }
  intros _.
  apply sends_bind_quiet; [| | reflexivity].
  { eapply quiet_weaken; [| apply quiet_read_expected_msg].
    intros [] Hev; cbn in *; tauto. }
  intros [[challenge|] socket'] _ _ _.
  2: { apply sends_quiet.
       apply quiet_bind; [apply quiet_cerr; reflexivity | intros; apply quiet_ret]. }
  apply sends_bind_quiet; [apply quiet_get_credential | | reflexivity].
  intros [credential|] w w' Hg.
  - pose proof (get_credential_denied op' challenge w) as D.
    rewrite Hg in D. destruct D.
  - apply sends_quiet, quiet_ret.
Qed.

Lemma hook_denied n a0 a1 a2 a3 a4 a5 :
  sends (fun s => s = [] \/ s = [ev_sendmsg guardo_addr challenge_frame []])
    (hook' n a0 a1 a2 a3 a4 a5) env.
Proof.
  unfold hook.
  apply sends_bind_quiet; [| | now left].
  { eapply quiet_weaken; [| apply quiet_hook_switch].
    intros [] Hev; cbn in *; congruence. }
  intros [[[] op]|] _ _ _; cbn [negb].
  - apply negotiate_denied.
  - eapply sends_weaken; [| apply sends_quiet, quiet_ret]. intros s ->. now left.
  - eapply sends_weaken; [| apply sends_quiet, quiet_ret]. intros s ->. now left.
Qed.

(** C8. Suppose the first message the agent sends on a fresh connection is
    a [CredentialResponse] whose status is not [APPROVED]. Then
    [get_credential] never returns a credential (it returns false, unless
    connecting or writing to the agent raised), and in a run of [safe_hook]
    the only [sendmsg] there can be is the [ChallengeRequest] with no
    descriptors: no [ElevationRequest] follows it. The result cell keeps
    the real result. *)
Theorem denied_credential_stops_negotiation :
  (forall op (challenge : Challenge) w,
      match fst (get_credential' op challenge env w) with
      | Ok None => True
      | Ok (Some _) => False
      | Throw e =>
          connect_error env agent_addr = Some e
          \/ exists data, send_error env agent_addr data = Some e
      | Undefined => False
      end)
  /\ (forall n a0 a1 a2 a3 a4 a5 w,
        exists evs,
          w_trace (snd (safe_hook' n a0 a1 a2 a3 a4 a5 env w)) = w_trace w ++ evs
          /\ (filter is_sendmsg evs = []
              \/ filter is_sendmsg evs = [ev_sendmsg guardo_addr challenge_frame []])
          /\ (safe_hook_switch n = true ->
              w_result (snd (safe_hook' n a0 a1 a2 a3 a4 a5 env w))
              = syscall_no_intercept env n a0 a1 a2 a3 a4 a5)).
Proof.
  split; [apply get_credential_denied |].
  intros n a0 a1 a2 a3 a4 a5 w.
  destruct (safe_hook_switch n) eqn:Hsw.
  2: { rewrite safe_hook_declines by exact Hsw.
       exists []. cbn. rewrite app_nil_r. repeat split; [now left | discriminate]. }
  rewrite safe_hook_unfold by exact Hsw. cbv zeta.
  destruct (negb _ && negb _).
  { exists [ev_syscall_no_intercept n a0 a1 a2 a3 a4 a5].
    cbn. repeat split. now left. }
  destruct (hook_denied n a0 a1 a2 a3 a4 a5
              (after_real_syscall env n a0 a1 a2 a3 a4 a5 w)) as (evs & E & F).
  destruct (hook' n a0 a1 a2 a3 a4 a5 env _) as [[x|e|] w2];
    cbn [snd] in E; subst w2; cbn [snd fst w_trace w_result after_real_syscall].
  - exists (ev_syscall_no_intercept n a0 a1 a2 a3 a4 a5 :: evs).
    rewrite <- app_assoc. repeat split. exact F.
  - exists (ev_syscall_no_intercept n a0 a1 a2 a3 a4 a5 :: evs ++ [catch_event e]).
    rewrite <- !app_assoc. repeat split.
    cbn [filter is_sendmsg]. rewrite filter_app.
    replace (filter is_sendmsg [catch_event e]) with (@nil Event)
      by (destruct e; reflexivity).
    rewrite app_nil_r. exact F.
  - exists (ev_syscall_no_intercept n a0 a1 a2 a3 a4 a5 :: evs).
    rewrite <- app_assoc. repeat split. exact F.
Qed.

End Denied.

End ProtocolFacts.

(** ** [marshal_fds] *)

Lemma resolves_descriptor_free env a a' :
  resolves env a a' -> descriptor_free a' = true.
Proof.
  intros [cwd _ | fd target _ _ | s | b Hb]; try reflexivity.
  destruct b as [ | | | | [ | | ] | ]; try reflexivity; destruct Hb.
Qed.

Lemma marshal_arg_spec env arg fd_cwd fds w arg' fd_cwd' fds' w' :
  marshal_arg arg fd_cwd fds env w = (Ok (arg', fd_cwd', fds'), w') ->
  fd_cwd = None \/ fd_cwd = Some (openat_cwd env) ->
  resolves env arg arg'
  /\ fds' = fds ++ transplants env [arg]
  /\ fd_cwd' = (if is_cwd_arg arg then Some (openat_cwd env) else fd_cwd)
  /\ w' = {| w_result := w_result w;
             w_trace := w_trace w ++ duplications fd_cwd [arg] |}.
Proof.
  intros Hrun Hinv.
  assert (Hw : w = {| w_result := w_result w; w_trace := w_trace w ++ [] |})
    by apply world_eta.
  unfold marshal_arg in Hrun.
  destruct arg as [ | v | v | v | [ | fd | p] | s ];
    try (inversion Hrun; subst; unfold transplants, duplications; cbn;
         rewrite app_nil_r;
         repeat split; try exact Hw; now constructor).
  2: { inversion Hrun; subst. unfold transplants, duplications. cbn.
       repeat split; [constructor | exact Hw]. }
  unfold transplants, duplications. cbn [filter carries_descriptor map transplant
    existsb is_cwd_arg orb].
  destruct (Z.eqb_spec fd AT_FDCWD) as [-> | Hfd]; cbn [orb] in *.
  - unfold bind, ask, raise_or_return, ret, throw in Hrun.
    destruct Hinv as [-> | ->].
    + unfold duplicate_cwd, bind, emit, ask, ret, throw in Hrun.
      destruct (openat_cwd env <? 0); [discriminate |].
      destruct (current_path env) as [e | cwd] eqn:Ecwd; [discriminate |].
      inversion Hrun; subst. repeat split. now constructor.
    + destruct (current_path env) as [e | cwd] eqn:Ecwd; [discriminate |].
      inversion Hrun; subst. repeat split; [now constructor | exact Hw].
  - unfold bind, ask, raise_or_return, ret, throw in Hrun.
    destruct (read_symlink env _) as [e | target] eqn:Et; [discriminate |].
    inversion Hrun; subst. repeat split; [now constructor | exact Hw].
Qed.

Lemma transplants_cons env a l :
  transplants env (a :: l) = transplants env [a] ++ transplants env l.
Proof.
  unfold transplants. cbn. destruct (carries_descriptor a); reflexivity.
Qed.

Lemma marshal_args_spec env l :
  forall fd_cwd fds w l' fd_cwd' fds' w',
    marshal_args l fd_cwd fds env w = (Ok (l', fd_cwd', fds'), w') ->
    fd_cwd = None \/ fd_cwd = Some (openat_cwd env) ->
    Forall2 (resolves env) l l'
    /\ fds' = fds ++ transplants env l
    /\ fd_cwd' = (if existsb is_cwd_arg l then Some (openat_cwd env) else fd_cwd)
    /\ w' = {| w_result := w_result w;
               w_trace := w_trace w ++ duplications fd_cwd l |}.
Proof.
  induction l as [|arg rest IH]; intros fd_cwd fds w l' fd_cwd' fds' w' Hrun Hinv.
  - inversion Hrun; subst. unfold transplants, duplications. cbn.
    rewrite app_nil_r. repeat split; [constructor | apply world_eta].
  - cbn [marshal_args] in Hrun. unfold bind at 1 in Hrun.
    destruct (marshal_arg arg fd_cwd fds env w) as [[[[arg1 fd_cwd1] fds1]|e|] w1] eqn:E1;
      try discriminate.
    destruct (@marshal_arg_spec _ _ _ _ _ _ _ _ _ E1 Hinv) as (R1 & F1 & C1 & W1).
    unfold bind at 1 in Hrun.
    destruct (marshal_args rest fd_cwd1 fds1 env w1)
      as [[[[rest1 fd_cwd2] fds2]|e|] w2] eqn:E2; try discriminate.
    assert (Hinv1 : fd_cwd1 = None \/ fd_cwd1 = Some (openat_cwd env)).
    { subst fd_cwd1. destruct (is_cwd_arg arg); [now right | exact Hinv]. }
    destruct (IH _ _ _ _ _ _ _ E2 Hinv1) as (R2 & F2 & C2 & W2).
    inversion Hrun; subst l' fd_cwd' fds' w'. clear Hrun.
    split; [now constructor |].
    split; [rewrite transplants_cons, app_assoc; congruence |].
    subst w2 w1 fd_cwd2 fd_cwd1. cbn [w_result w_trace existsb].
    unfold duplications. cbn [existsb orb].
    destruct (is_cwd_arg arg); cbn [orb].
    + split; [destruct (existsb is_cwd_arg rest); reflexivity |].
      rewrite <- app_assoc. f_equal. f_equal.
      destruct (existsb is_cwd_arg rest); [| apply app_nil_r].
      apply app_nil_r.
    + split; [reflexivity |].
      rewrite <- app_assoc. reflexivity.
Qed.

Lemma resolved_args_descriptor_free env l l' :
  Forall2 (resolves env) l l' -> forallb descriptor_free l' = true.
Proof.
  induction 1 as [|a b l l' Hab _ IH]; [reflexivity |].
  cbn. rewrite (resolves_descriptor_free Hab). exact IH.
Qed.

(** C5. When [marshal_fds] returns, each argument has been rewritten as
    [resolves] says: a raw [AT_FDCWD] became the path of the current
    directory, any other raw descriptor became the target of its
    [/proc/self/fd] link, a socket argument lost its descriptor number, and
    the other arguments are unchanged. So no argument of the result holds
    a descriptor number. This holds for every operation, those built by
    the encoders included. *)
Theorem marshal_fds_resolves env op fds w op' fds' fd_cwd w' :
  marshal_fds op fds env w = (Ok (op', fds', fd_cwd), w') ->
  syscall_num op' = syscall_num op
  /\ Forall2 (resolves env) (args op) (args op')
  /\ forallb descriptor_free (args op') = true.
Proof.
  intros Hrun. unfold marshal_fds in Hrun. unfold bind at 1 in Hrun.
  destruct (marshal_args (args op) None fds env w)
    as [[[[l1 c1] f1]|e|] w1] eqn:E; try discriminate.
  inversion Hrun; subst. cbn [syscall_num args].
  destruct (@marshal_args_spec _ _ _ _ _ _ _ _ _ E (or_introl eq_refl)) as (R & _).
  repeat split; [exact R |].
  eapply resolved_args_descriptor_free; exact R.
Qed.

(** C6. When [marshal_fds] returns, the transplant list has grown by one
    entry for each raw directory argument and each socket argument, in the
    order of the arguments: the duplicated working directory for
    [AT_FDCWD], the descriptor itself otherwise. The working directory is
    opened once if some argument is [AT_FDCWD], and not at all otherwise;
    nothing else is added to the trace, and the owner returned is that one
    descriptor. *)
Theorem marshal_fds_transplants env op fds w op' fds' fd_cwd w' :
  marshal_fds op fds env w = (Ok (op', fds', fd_cwd), w') ->
  fds' = fds ++ map (transplant env) (filter carries_descriptor (args op))
  /\ w_trace w' = w_trace w
       ++ (if existsb is_cwd_arg (args op) then [ev_openat_cwd] else [])
  /\ fd_cwd = (if existsb is_cwd_arg (args op) then Some (openat_cwd env) else None).
Proof.
  intros Hrun. unfold marshal_fds in Hrun. unfold bind at 1 in Hrun.
  destruct (marshal_args (args op) None fds env w)
    as [[[[l1 c1] f1]|e|] w1] eqn:E; try discriminate.
  inversion Hrun; subst.
  destruct (@marshal_args_spec _ _ _ _ _ _ _ _ _ E (or_introl eq_refl)) as (_ & F & C & W).
  subst. repeat split.
Qed.

(** [marshal_fds] does return when the working directory can be opened and
    named and every descriptor link can be read. *)
Lemma marshal_args_returns env :
  0 <= openat_cwd env ->
  (exists cwd, current_path env = inr cwd) ->
  (forall p, exists target, read_symlink env p = inr target) ->
  forall l fd_cwd fds w, exists r w', marshal_args l fd_cwd fds env w = (Ok r, w').
Proof.
  intros Hfd [cwd Hcwd] Hlink.
  induction l as [|arg rest IH]; intros fd_cwd fds w; cbn [marshal_args].
  - eexists _, _. reflexivity.
  - assert (H1 : exists r w', marshal_arg arg fd_cwd fds env w = (Ok r, w')).
    { unfold marshal_arg.
      destruct arg as [ | v | v | v | [ | fd | p] | s ];
        try (eexists _, _; reflexivity).
      destruct (fd =? AT_FDCWD).
      - unfold bind, ask, raise_or_return, ret. rewrite Hcwd.
        destruct fd_cwd as [n|]; [eexists _, _; reflexivity |].
        unfold duplicate_cwd, bind, emit, ask, ret.
        destruct (Z.ltb_spec (openat_cwd env) 0); [lia |].
        eexists _, _; reflexivity.
      - unfold bind, ask, raise_or_return, ret.
        destruct (Hlink (path_append "/proc/self/fd" (to_string fd))) as [t ->].
        eexists _, _; reflexivity. }
    destruct H1 as ([[arg1 c1] f1] & w1 & E1).
    destruct (IH c1 f1 w1) as ([[rest1 c2] f2] & w2 & E2).
    unfold bind. rewrite E1, E2. eexists _, _. reflexivity.
Qed.

Lemma marshal_fds_returns env :
  0 <= openat_cwd env ->
  (exists cwd, current_path env = inr cwd) ->
  (forall p, exists target, read_symlink env p = inr target) ->
  forall op fds w, exists r w', marshal_fds op fds env w = (Ok r, w').
Proof.
  intros Hfd Hcwd Hlink op fds w. unfold marshal_fds.
  destruct (@marshal_args_returns env Hfd Hcwd Hlink (args op) None fds w)
    as ([[l1 c1] f1] & w1 & E).
  unfold bind. rewrite E. eexists _, _. reflexivity.
Qed.

(** ** Framing *)

(** The frame is the length of tag and payload in four bytes, most
    significant first, then the tag, then the payload. *)
Lemma create_raw_msg_layout {T} `{MessageLite T} (msg_num : byte) (msg : T) :
  create_raw_msg msg_num msg
  = be32 (to_uint32 (1 + Z.of_nat (length (SerializeAsString msg))))
    ++ msg_num :: SerializeAsString msg.
Proof.
  unfold create_raw_msg. cbn [repeat firstn skipn app length].
  f_equal. f_equal. f_equal. lia.
Qed.

Lemma load_be32_exact v : 0 <= v < 2 ^ 32 -> load_be32 (be32 v) = Some v.
Proof. intros Hv. exact (@load_be32_be32 v [] Hv). Qed.

Lemma read_full_run fd n env w pre post :
  unread fd = pre ++ post ->
  Z.of_nat (length pre) = n ->
  read_full fd n env w
  = (Ok (pre, {| peer := peer fd; unread := post |}),
     {| w_result := w_result w;
        w_trace := w_trace w ++ [ev_read_full (peer fd) n] |}).
Proof.
  intros Hu Hn. unfold read_full, bind, emit, ret.
  rewrite Hu, length_app.
  destruct (Z.ltb_spec n 0); [lia |].
  destruct (Z.ltb_spec (Z.of_nat (length pre + length post)) n); [lia |].
  cbn [orb]. subst n. rewrite Nat2Z.id.
  rewrite firstn_app, Nat.sub_diag, firstn_all, firstn_O, app_nil_r.
  rewrite skipn_app, Nat.sub_diag, skipn_all, skipn_O. reflexivity.
Qed.

(** [read_expected_msg] on a stream that starts with a frame. *)
Lemma read_expected_msg_frame {T} `{MessageLite T}
  (msg_num expected : byte) (msg : T) fd rest env w :
  1 + Z.of_nat (length (SerializeAsString msg)) < 2 ^ 31 ->
  unread fd = create_raw_msg msg_num msg ++ rest ->
  let len := 1 + Z.of_nat (length (SerializeAsString msg)) in
  let fd' := {| peer := peer fd; unread := rest |} in
  let reads := [ev_read_full (peer fd) 4; ev_read_full (peer fd) len] in
  read_expected_msg (T := T) fd expected env w
  = if char_of_byte msg_num =? Z_of_byte expected then
      match ParseFromString (SerializeAsString msg) with
      | Some msg' =>
          (Ok (Some msg', fd'),
           {| w_result := w_result w; w_trace := w_trace w ++ reads |})
      | None =>
          (Ok (None, fd'),
           {| w_result := w_result w;
              w_trace := w_trace w ++ reads
                         ++ [ev_cerr "Failed to parse msg from string"] |})
      end
    else
      (Ok (None, fd'),
       {| w_result := w_result w;
          w_trace := w_trace w ++ reads ++ [ev_cerr "Invalid msg_num"] |}).
Proof.
  intros Hlen Hu len fd' reads.
  assert (Hpos : 0 <= Z.of_nat (length (SerializeAsString msg))) by lia.
  rewrite create_raw_msg_layout in Hu. fold len in Hu.
  rewrite to_uint32_small in Hu by (change (2 ^ 32) with (2 * 2 ^ 31); lia).
  assert (R1 : forall w0, read_full fd 4 env w0
                = (Ok (be32 len, {| peer := peer fd;
                                    unread := msg_num :: SerializeAsString msg ++ rest |}),
                   {| w_result := w_result w0;
                      w_trace := w_trace w0 ++ [ev_read_full (peer fd) 4] |})).
  { intros w0. apply read_full_run; [| reflexivity].
    rewrite Hu, <- app_assoc. reflexivity. }
  assert (R2 : forall fd1 w0,
             unread fd1 = msg_num :: SerializeAsString msg ++ rest ->
             read_full fd1 len env w0
             = (Ok (msg_num :: SerializeAsString msg,
                    {| peer := peer fd1; unread := rest |}),
                {| w_result := w_result w0;
                   w_trace := w_trace w0 ++ [ev_read_full (peer fd1) len] |})).
  { intros fd1 w0 Hu1. apply read_full_run; [exact Hu1 |].
    subst len. cbn [length]. lia. }
  unfold read_expected_msg. unfold bind at 1. rewrite R1.
  rewrite load_be32_exact by (change (2 ^ 32) with (2 * 2 ^ 31); lia).
  rewrite to_int_small by lia.
  unfold bind at 1. rewrite R2 by reflexivity.
  cbn [front_char peer w_result w_trace].
  destruct (char_of_byte msg_num =? Z_of_byte expected); cbn [negb].
  - unfold bind at 1. cbn [substr1 ret].
    destruct (ParseFromString (SerializeAsString msg)).
    + subst reads fd'. cbn. rewrite <- app_assoc. reflexivity.
    + subst reads fd'. unfold bind, cerr, emit, ret. cbn.
      rewrite <- !app_assoc. reflexivity.
  - subst reads fd'. unfold bind, cerr, emit, ret. cbn.
    rewrite <- !app_assoc. reflexivity.
Qed.

(** Round trip for the tags below 128: what was framed is what is read,
    provided the message encoding itself round-trips. *)
Lemma read_expected_msg_round_trip {T} `{MessageLite T}
  (msg_num : byte) (msg : T) fd rest env w :
  Z_of_byte msg_num < 128 ->
  ParseFromString (SerializeAsString msg) = Some msg ->
  1 + Z.of_nat (length (SerializeAsString msg)) < 2 ^ 31 ->
  unread fd = create_raw_msg msg_num msg ++ rest ->
  fst (read_expected_msg (T := T) fd msg_num env w)
  = Ok (Some msg, {| peer := peer fd; unread := rest |}).
Proof.
  intros Htag Hparse Hlen Hu.
  rewrite (@read_expected_msg_frame T H msg_num msg_num msg fd rest env w Hlen Hu).
  unfold char_of_byte.
  destruct (Z.ltb_spec (Z_of_byte msg_num) 128); [| lia].
  rewrite Z.eqb_refl, Hparse. reflexivity.
Qed.

(** A frame with another tag, or a payload that does not parse, makes
    [read_expected_msg] return false. *)
Lemma read_expected_msg_reports_failure {T} `{MessageLite T}
  (msg_num expected : byte) (msg : T) fd rest env w :
  1 + Z.of_nat (length (SerializeAsString msg)) < 2 ^ 31 ->
  unread fd = create_raw_msg msg_num msg ++ rest ->
  char_of_byte msg_num <> Z_of_byte expected
  \/ ParseFromString (T := T) (SerializeAsString msg) = None ->
  fst (read_expected_msg (T := T) fd expected env w)
  = Ok (None, {| peer := peer fd; unread := rest |}).
Proof.
  intros Hlen Hu Hbad.
  rewrite (@read_expected_msg_frame T H msg_num expected msg fd rest env w Hlen Hu).
  destruct (Z.eqb_spec (char_of_byte msg_num) (Z_of_byte expected)) as [E | E].
  - destruct Hbad as [Hbad | Hbad]; [contradiction |].
    rewrite Hbad. reflexivity.
  - reflexivity.
Qed.

(** C9, at the tags from 128 up. [packet[0]] is a [char], negative for
    these bytes, and is compared with the [unsigned char] that is expected:
    the two never agree, so the frame [create_raw_msg] built with a tag is
    refused by [read_expected_msg] asked for that same tag. *)
Theorem read_expected_msg_refuses_high_tags {T} `{MessageLite T}
  (msg_num : byte) (msg : T) fd rest env w :
  128 <= Z_of_byte msg_num ->
  1 + Z.of_nat (length (SerializeAsString msg)) < 2 ^ 31 ->
  unread fd = create_raw_msg msg_num msg ++ rest ->
  read_expected_msg (T := T) fd msg_num env w
  = (Ok (None, {| peer := peer fd; unread := rest |}),
     {| w_result := w_result w;
        w_trace := w_trace w
          ++ [ev_read_full (peer fd) 4;
              ev_read_full (peer fd) (1 + Z.of_nat (length (SerializeAsString msg)));
              ev_cerr "Invalid msg_num"] |}).
Proof.
  intros Htag Hlen Hu.
  rewrite (@read_expected_msg_frame T H msg_num msg_num msg fd rest env w Hlen Hu).
  unfold char_of_byte.
  destruct (Z.ltb_spec (Z_of_byte msg_num) 128); [lia |].
  destruct (Z.eqb_spec (Z_of_byte msg_num - 256) (Z_of_byte msg_num)); [lia |].
  reflexivity.
Qed.

(** * The model at work

    The end-to-end scenarios, run on the concrete protocol. *)

(** [openat(AT_FDCWD, "secret", O_RDONLY, 0)] is refused, the negotiation
    succeeds and the daemon hands over descriptor 9: the filter's result is
    9, and the operation travelled with the working directory resolved. *)
Example openat_elevated :
  Sample.run_safe_hook
    (Sample.env (- EACCES) Sample.APPROVED Sample.descriptor_granted [9])
    SYS_openat AT_FDCWD 1000 0 0 0 0 Sample.world0
  = (Ok 0,
     {| w_result := 9;
        w_trace :=
          [ev_syscall_no_intercept SYS_openat AT_FDCWD 1000 0 0 0 0;
           ev_openat_cwd;
           ev_connect "/tmp/.guardo-sock";
           ev_sendmsg "/tmp/.guardo-sock" [x00; x00; x00; x01; x01] [];
           ev_read_full "/tmp/.guardo-sock" 4;
           ev_read_full "/tmp/.guardo-sock" 3;
           ev_connect "/run/user/1000/.agent-guard-sock";
           ev_write "/run/user/1000/.agent-guard-sock"
             [x00; x00; x00; x04; x05; x01; x2a; x2b];
           ev_read_full "/run/user/1000/.agent-guard-sock" 4;
           ev_read_full "/run/user/1000/.agent-guard-sock" 3;
           ev_sendmsg "/tmp/.guardo-sock" [x00; x00; x00; x03; x03; x01; x63] [7];
           ev_recvmsg "/tmp/.guardo-sock"] |}).
Proof. vm_compute. reflexivity. Qed.

(** The same call with the agent answering "denied": the result is the
    original [-EACCES]. *)
Example openat_denied :
  fst (Sample.run_safe_hook
         (Sample.env (- EACCES) Sample.DENIED Sample.descriptor_granted [9])
         SYS_openat AT_FDCWD 1000 0 0 0 0 Sample.world0) = Ok 0
  /\ w_result (snd (Sample.run_safe_hook
         (Sample.env (- EACCES) Sample.DENIED Sample.descriptor_granted [9])
         SYS_openat AT_FDCWD 1000 0 0 0 0 Sample.world0)) = - EACCES.
Proof. split; vm_compute; reflexivity. Qed.

(** The daemon announces a descriptor but attaches none: the attempt is
    abandoned and the result is the original [-EACCES]. *)
Example openat_descriptor_missing :
  Sample.run_hook
    (Sample.env (- EACCES) Sample.APPROVED Sample.descriptor_granted [])
    SYS_openat AT_FDCWD 1000 0 0 0 0
    {| w_result := - EACCES; w_trace := [] |}
  = (Ok exit_no_descriptor,
     {| w_result := - EACCES;
        w_trace :=
          [ev_openat_cwd;
           ev_connect "/tmp/.guardo-sock";
           ev_sendmsg "/tmp/.guardo-sock" [x00; x00; x00; x01; x01] [];
           ev_read_full "/tmp/.guardo-sock" 4;
           ev_read_full "/tmp/.guardo-sock" 3;
           ev_connect "/run/user/1000/.agent-guard-sock";
           ev_write "/run/user/1000/.agent-guard-sock"
             [x00; x00; x00; x04; x05; x01; x2a; x2b];
           ev_read_full "/run/user/1000/.agent-guard-sock" 4;
           ev_read_full "/run/user/1000/.agent-guard-sock" 3;
           ev_sendmsg "/tmp/.guardo-sock" [x00; x00; x00; x03; x03; x01; x63] [7];
           ev_recvmsg "/tmp/.guardo-sock";
           ev_cerr "Error: no file descriptor with approval"] |}).
Proof. vm_compute. reflexivity. Qed.

(** A numeric result: [unlink] elevated, the daemon answers 5. *)
Example unlink_elevated :
  w_result (snd (Sample.run_safe_hook
     (Sample.env (- EPERM) Sample.APPROVED {| is_result_fd := false; result := 5 |} [])
     SYS_unlink 1000 0 0 0 0 0 Sample.world0)) = 5.
Proof. vm_compute. reflexivity. Qed.

(** An exception that is not a [std::exception] is caught as well. *)
Example unknown_exception_caught :
  Sample.run_safe_hook
    (Sample.unreachable other_exception
       (Sample.env (- EACCES) Sample.APPROVED Sample.descriptor_granted [9]))
    SYS_socket 1 1 0 0 0 0 Sample.world0
  = (Ok 0,
     {| w_result := - EACCES;
        w_trace :=
          [ev_syscall_no_intercept SYS_socket 1 1 0 0 0 0;
           ev_connect "/tmp/.guardo-sock";
           ev_cerr "Unknown exeception caught in hook"] |}).
Proof. vm_compute. reflexivity. Qed.

(** With neither [XDG_RUNTIME_DIR] nor [HOME] the credential phase has no
    defined behaviour. *)
Example no_runtime_dir :
  user_runtime_dir
    {| syscall_no_intercept := fun _ _ _ _ _ _ _ => - EACCES;
       c_str := fun _ => "secret"%string;
       mem_bytes := fun _ _ => [];
       getenv := fun _ => None;
       openat_cwd := 7;
       current_path := inr "/home/user"%string;
       read_symlink := fun _ => inr "/srv/data"%string;
       status_permissions := fun _ => inr 420;
       connect_error := fun _ => None;
       send_error := fun _ _ => None;
       peer_stream := fun _ => [];
       peer_recvmsg := fun _ => inr ([], []) |}
    Sample.world0
  = (Undefined, Sample.world0).
Proof. reflexivity. Qed.

(** * Instances *)

Lemma real_result_stands_witness :
  Sample.run_safe_hook
    (Sample.env 3 Sample.APPROVED Sample.descriptor_granted [9])
    SYS_open 1000 0 0 0 0 0 Sample.world0
  = (Ok 0, {| w_result := 3;
              w_trace := [ev_syscall_no_intercept SYS_open 1000 0 0 0 0 0] |}).
Proof.
  apply (@real_result_stands Sample.Challenge Sample.Credential
           Sample.CHALLENGE_REQUEST Sample.CHALLENGE_RESPONSE
           Sample.CREDENTIAL_REQUEST Sample.CREDENTIAL_RESPONSE
           Sample.ELEVATION_REQUEST Sample.ELEVATION_RESPONSE Sample.APPROVED
           Sample.ChallengeRequest_msg Sample.Challenge_msg
           Sample.CredentialRequest_msg Sample.CredentialResponse_msg
           Sample.ElevationRequest_msg Sample.ElevationResponse_msg
           (Sample.env 3 Sample.APPROVED Sample.descriptor_granted [9])
           SYS_open 1000 0 0 0 0 0 Sample.world0).
  - reflexivity.
  - unfold permission_denied. cbn. intros [H | H]; discriminate H.
Defined.

Lemma abort_leaves_real_result_witness :
  exists w',
    Sample.run_safe_hook
      (Sample.env (- EACCES) Sample.DENIED Sample.descriptor_granted [9])
      SYS_openat AT_FDCWD 1000 0 0 0 0 Sample.world0 = (Ok 0, w')
    /\ w_result w' = - EACCES.
Proof.
  apply (@abort_leaves_real_result Sample.Challenge Sample.Credential
           Sample.CHALLENGE_REQUEST Sample.CHALLENGE_RESPONSE
           Sample.CREDENTIAL_REQUEST Sample.CREDENTIAL_RESPONSE
           Sample.ELEVATION_REQUEST Sample.ELEVATION_RESPONSE Sample.APPROVED
           Sample.ChallengeRequest_msg Sample.Challenge_msg
           Sample.CredentialRequest_msg Sample.CredentialResponse_msg
           Sample.ElevationRequest_msg Sample.ElevationResponse_msg
           (Sample.env (- EACCES) Sample.DENIED Sample.descriptor_granted [9])
           SYS_openat AT_FDCWD 1000 0 0 0 0 Sample.world0).
  - reflexivity.
  - left. reflexivity.
  - vm_compute. exact I.
Defined.

Lemma no_exception_escapes_witness :
  Sample.run_safe_hook
    (Sample.unreachable (std_exception "connect: Connection refused")
       (Sample.env (- EACCES) Sample.APPROVED Sample.descriptor_granted [9]))
    SYS_unlink 1000 0 0 0 0 0 Sample.world0
  = (Ok 0,
     {| w_result := - EACCES;
        w_trace :=
          [ev_syscall_no_intercept SYS_unlink 1000 0 0 0 0 0;
           ev_openat_cwd;
           ev_connect "/tmp/.guardo-sock";
           ev_print_exception (std_exception "connect: Connection refused")] |}).
Proof.
  apply (proj2 (@no_exception_escapes Sample.Challenge Sample.Credential
           Sample.CHALLENGE_REQUEST Sample.CHALLENGE_RESPONSE
           Sample.CREDENTIAL_REQUEST Sample.CREDENTIAL_RESPONSE
           Sample.ELEVATION_REQUEST Sample.ELEVATION_RESPONSE Sample.APPROVED
           Sample.ChallengeRequest_msg Sample.Challenge_msg
           Sample.CredentialRequest_msg Sample.CredentialResponse_msg
           Sample.ElevationRequest_msg Sample.ElevationResponse_msg
           (Sample.unreachable (std_exception "connect: Connection refused")
              (Sample.env (- EACCES) Sample.APPROVED Sample.descriptor_granted [9]))
           SYS_unlink 1000 0 0 0 0 0 Sample.world0)
         (std_exception "connect: Connection refused")
         {| w_result := - EACCES;
            w_trace := [ev_syscall_no_intercept SYS_unlink 1000 0 0 0 0 0;
                        ev_openat_cwd; ev_connect "/tmp/.guardo-sock"] |}).
  - reflexivity.
  - left. reflexivity.
  - vm_compute. reflexivity.
Defined.

Lemma execute_check_not_elevated_witness :
  Sample.run_hook
    (Sample.env (- EACCES) Sample.APPROVED Sample.descriptor_granted [9])
    SYS_access 1000 X_OK 0 0 0 0 Sample.world0
  = (Ok exit_should_not_hook, Sample.world0)
  /\ Sample.run_safe_hook
       (Sample.env (- EACCES) Sample.APPROVED Sample.descriptor_granted [9])
       SYS_access 1000 X_OK 0 0 0 0 Sample.world0
     = (Ok 0, {| w_result := - EACCES;
                 w_trace := [ev_syscall_no_intercept SYS_access 1000 X_OK 0 0 0 0] |}).
Proof.
  apply (proj1 (proj2
           (@execute_check_not_elevated Sample.Challenge Sample.Credential
           Sample.CHALLENGE_REQUEST Sample.CHALLENGE_RESPONSE
           Sample.CREDENTIAL_REQUEST Sample.CREDENTIAL_RESPONSE
           Sample.ELEVATION_REQUEST Sample.ELEVATION_RESPONSE Sample.APPROVED
           Sample.ChallengeRequest_msg Sample.Challenge_msg
           Sample.CredentialRequest_msg Sample.CredentialResponse_msg
           Sample.ElevationRequest_msg Sample.ElevationResponse_msg
              (Sample.env (- EACCES) Sample.APPROVED Sample.descriptor_granted [9])
              "secret"%string 420 Sample.world0
              eq_refl eq_refl eq_refl eq_refl))
         1000 X_OK 0 0 0 0).
  - reflexivity.
  - reflexivity.
Defined.

Lemma denied_credential_stops_negotiation_witness :
  exists evs,
    w_trace (snd (Sample.run_safe_hook
                    (Sample.env (- EACCES) Sample.DENIED Sample.descriptor_granted [9])
                    SYS_openat AT_FDCWD 1000 0 0 0 0 Sample.world0))
    = w_trace Sample.world0 ++ evs
    /\ (filter is_sendmsg evs = []
        \/ filter is_sendmsg evs
           = [ev_sendmsg (path_append "/tmp" GUARDO_SOCK_NAME)
                (@create_raw_msg _ Sample.ChallengeRequest_msg
                   Sample.CHALLENGE_REQUEST Build_ChallengeRequest) []])
    /\ (safe_hook_switch SYS_openat = true ->
        w_result (snd (Sample.run_safe_hook
                    (Sample.env (- EACCES) Sample.DENIED Sample.descriptor_granted [9])
                    SYS_openat AT_FDCWD 1000 0 0 0 0 Sample.world0))
        = - EACCES).
Proof.
  assert (Hne : status {| status := Sample.DENIED; credential := [x63] |}
                <> Sample.APPROVED) by discriminate.
  apply (proj2
           (@denied_credential_stops_negotiation Sample.Challenge Sample.Credential
           Sample.CHALLENGE_REQUEST Sample.CHALLENGE_RESPONSE
           Sample.CREDENTIAL_REQUEST Sample.CREDENTIAL_RESPONSE
           Sample.ELEVATION_REQUEST Sample.ELEVATION_RESPONSE Sample.APPROVED
           Sample.ChallengeRequest_msg Sample.Challenge_msg
           Sample.CredentialRequest_msg Sample.CredentialResponse_msg
           Sample.ElevationRequest_msg Sample.ElevationResponse_msg
              (Sample.env (- EACCES) Sample.DENIED Sample.descriptor_granted [9])
              "/run/user/1000"%string
              {| status := Sample.DENIED; credential := [x63] |}
              eq_refl eq_refl Hne)).
Defined.

Lemma marshal_fds_resolves_witness :
  marshal_fds
    (create_open_op AT_FDCWD "secret" 0 0 {| syscall_num := SYS_open; args := [] |})
    [] (Sample.env (- EACCES) Sample.APPROVED Sample.descriptor_granted [9])
    Sample.world0
  = (Ok ({| syscall_num := SYS_open;
            args := [dir_fd_arg (kPath "/home/user"); string_arg "secret";
                     int_arg 0; int_arg 0] |}, [7], Some 7),
     {| w_result := 0; w_trace := [ev_openat_cwd] |})
  /\ forallb descriptor_free
       [dir_fd_arg (kPath "/home/user"); string_arg "secret"; int_arg 0; int_arg 0]
     = true.
Proof.
  assert (E : marshal_fds
                (create_open_op AT_FDCWD "secret" 0 0
                   {| syscall_num := SYS_open; args := [] |})
                [] (Sample.env (- EACCES) Sample.APPROVED Sample.descriptor_granted [9])
                Sample.world0
              = (Ok ({| syscall_num := SYS_open;
                        args := [dir_fd_arg (kPath "/home/user"); string_arg "secret";
                                 int_arg 0; int_arg 0] |}, [7], Some 7),
                 {| w_result := 0; w_trace := [ev_openat_cwd] |}))
    by reflexivity.
  split; [exact E |].
  exact (proj2 (proj2 (@marshal_fds_resolves _ _ _ _ _ _ _ _ E))).
Defined.

Lemma marshal_fds_transplants_witness :
  marshal_fds
    {| syscall_num := SYS_openat;
       args := [dir_fd_arg (kFd AT_FDCWD); socket_arg {| socket_fd := Some 5 |};
                dir_fd_arg (kFd 4); dir_fd_arg (kFd AT_FDCWD); int_arg 1] |}
    [] (Sample.env (- EACCES) Sample.APPROVED Sample.descriptor_granted [9])
    Sample.world0
  = (Ok ({| syscall_num := SYS_openat;
            args := [dir_fd_arg (kPath "/home/user");
                     socket_arg {| socket_fd := None |};
                     dir_fd_arg (kPath "/srv/data");
                     dir_fd_arg (kPath "/home/user"); int_arg 1] |},
         [7; 5; 4; 7], Some 7),
     {| w_result := 0; w_trace := [ev_openat_cwd] |})
  /\ [7; 5; 4; 7]
     = [] ++ map (transplant (Sample.env (- EACCES) Sample.APPROVED
                                Sample.descriptor_granted [9]))
               (filter carries_descriptor
                  [dir_fd_arg (kFd AT_FDCWD); socket_arg {| socket_fd := Some 5 |};
                   dir_fd_arg (kFd 4); dir_fd_arg (kFd AT_FDCWD); int_arg 1]).
Proof.
  assert (E : marshal_fds
                {| syscall_num := SYS_openat;
                   args := [dir_fd_arg (kFd AT_FDCWD);
                            socket_arg {| socket_fd := Some 5 |};
                            dir_fd_arg (kFd 4); dir_fd_arg (kFd AT_FDCWD);
                            int_arg 1] |}
                [] (Sample.env (- EACCES) Sample.APPROVED Sample.descriptor_granted [9])
                Sample.world0
              = (Ok ({| syscall_num := SYS_openat;
                        args := [dir_fd_arg (kPath "/home/user");
                                 socket_arg {| socket_fd := None |};
                                 dir_fd_arg (kPath "/srv/data");
                                 dir_fd_arg (kPath "/home/user"); int_arg 1] |},
                     [7; 5; 4; 7], Some 7),
                 {| w_result := 0; w_trace := [ev_openat_cwd] |}))
    by reflexivity.
  split; [exact E |].
  exact (proj1 (@marshal_fds_transplants _ _ _ _ _ _ _ _ E)).
Defined.

Lemma read_expected_msg_refuses_high_tags_witness :
  @read_expected_msg Sample.Challenge Sample.Challenge_msg
    {| peer := "/tmp/.guardo-sock";
       unread := @create_raw_msg _ Sample.Challenge_msg x80 [x2a] ++ [] |}
    x80 (Sample.env (- EACCES) Sample.APPROVED Sample.descriptor_granted [9])
    Sample.world0
  = (Ok (None, {| peer := "/tmp/.guardo-sock"; unread := [] |}),
     {| w_result := 0;
        w_trace := [ev_read_full "/tmp/.guardo-sock" 4;
                    ev_read_full "/tmp/.guardo-sock" 2;
                    ev_cerr "Invalid msg_num"] |}).
Proof.
  apply (@read_expected_msg_refuses_high_tags Sample.Challenge Sample.Challenge_msg
           x80 [x2a]
           {| peer := "/tmp/.guardo-sock";
              unread := @create_raw_msg _ Sample.Challenge_msg x80 [x2a] ++ [] |}
           [] (Sample.env (- EACCES) Sample.APPROVED Sample.descriptor_granted [9])
           Sample.world0).
  - vm_compute. discriminate.
  - vm_compute. reflexivity.
  - reflexivity.
Defined.

Lemma runtime_dir_precondition_witness :
  user_runtime_dir
    (Sample.env (- EACCES) Sample.APPROVED Sample.descriptor_granted [9])
    Sample.world0
  = (Ok "/run/user/1000"%string, Sample.world0).
Proof.
  apply (proj1 (@runtime_dir_precondition Sample.Challenge Sample.Credential
           Sample.CREDENTIAL_REQUEST Sample.CREDENTIAL_RESPONSE Sample.APPROVED
           Sample.CredentialRequest_msg Sample.CredentialResponse_msg
           (Sample.env (- EACCES) Sample.APPROVED Sample.descriptor_granted [9])
           Sample.world0)).
  reflexivity.
Defined.

(** Against C7 read for any mode that includes [X_OK]: an access check
    for read and execute together ([R_OK | X_OK], 5) does request execute
    permission, and "secret" has mode 0644, without any execute bit; yet
    [create_access_op] returns true and the filter goes on to connect to
    the elevation daemon. *)
Lemma execute_and_read_check_is_elevated :
  Z.land 5 X_OK = X_OK
  /\ status_permissions
       (Sample.env (- EACCES) Sample.APPROVED Sample.descriptor_granted [9])
       "secret" = inr 420
  /\ Z.land 420 owner_exec = perms_none
  /\ Z.land 420 group_exec = perms_none
  /\ Z.land 420 others_exec = perms_none
  /\ fst (create_access_op AT_FDCWD "secret" 5 0
            {| syscall_num := SYS_access; args := [] |}
            (Sample.env (- EACCES) Sample.APPROVED Sample.descriptor_granted [9])
            Sample.world0)
     = Ok (true,
           {| syscall_num := SYS_access;
              args := [dir_fd_arg (kFd AT_FDCWD); string_arg "secret";
                       int_arg 5; int_arg 0] |})
  /\ filter is_network
       (w_trace (snd (Sample.run_safe_hook
          (Sample.env (- EACCES) Sample.APPROVED Sample.descriptor_granted [9])
          SYS_access 1000 5 0 0 0 0 Sample.world0)))
     <> [].
Proof.
  repeat split; try reflexivity.
  vm_compute. discriminate.
Qed.

(** * Further properties *)

(** ** Receiving with descriptors *)

Lemma c_string_clean l : Forall (fun b => b <> x00) l -> c_string l = l.
Proof.
  induction 1 as [|b l Hb _ IH]; [reflexivity |].
  cbn. destruct (Byte.eqb b x00) eqn:E.
  - apply Byte.byte_dec_bl in E. contradiction.
  - now rewrite IH.
Qed.

Lemma c_string_cut l tail :
  Forall (fun b => b <> x00) l -> c_string (l ++ x00 :: tail) = l.
Proof.
  induction 1 as [|b l Hb _ IH]; [reflexivity |].
  cbn. destruct (Byte.eqb b x00) eqn:E.
  - apply Byte.byte_dec_bl in E. contradiction.
  - now rewrite IH.
Qed.

Lemma recvmsg_run socket env w :
  recvmsg socket env w =
  (match peer_recvmsg env (peer socket) with
   | inl e => Throw e
   | inr r => Ok r
   end,
   {| w_result := w_result w;
      w_trace := w_trace w ++ [ev_recvmsg (peer socket)] |}).
Proof.
  unfold recvmsg, bind, emit, ask, raise_or_return, throw, ret.
  destruct (peer_recvmsg env (peer socket)); reflexivity.
Qed.

(** [read_expected_msg_with_fd] when what is received is one frame. *)
Lemma read_expected_msg_with_fd_frame {T} `{MessageLite T}
  (msg_num expected : byte) (msg : T) socket rfds env w :
  1 + Z.of_nat (length (SerializeAsString msg)) < 2 ^ 31 ->
  peer_recvmsg env (peer socket) = inr (create_raw_msg msg_num msg, rfds) ->
  let w1 := {| w_result := w_result w;
               w_trace := w_trace w ++ [ev_recvmsg (peer socket)] |} in
  read_expected_msg_with_fd (T := T) socket expected env w
  = if Byte.eqb msg_num expected then
      match ParseFromString (c_string (SerializeAsString msg)) with
      | Some msg' => (Ok (Some msg', rfds), w1)
      | None =>
          (Ok (None, rfds),
           {| w_result := w_result w;
              w_trace := w_trace w1 ++ [ev_cerr "Error: failed to parse msg"] |})
      end
    else
      (Ok (None, rfds),
       {| w_result := w_result w;
          w_trace := w_trace w1 ++ [ev_cerr "Invalid msg_num"] |}).
Proof.
  intros Hlen Hrecv w1.
  assert (Hpos : 0 <= Z.of_nat (length (SerializeAsString msg))) by lia.
  rewrite create_raw_msg_layout in Hrecv.
  rewrite to_uint32_small in Hrecv by (change (2 ^ 32) with (2 * 2 ^ 31); lia).
  unfold read_expected_msg_with_fd. unfold bind at 1.
  rewrite recvmsg_run, Hrecv. fold w1.
  rewrite load_be32_be32 by (change (2 ^ 32) with (2 * 2 ^ 31); lia).
  rewrite to_int_small by lia.
  assert (Hsize : Z.of_nat (length (be32 (1 + Z.of_nat (length (SerializeAsString msg)))
                                    ++ msg_num :: SerializeAsString msg))
                  = to_size_t (4 + (1 + Z.of_nat (length (SerializeAsString msg))))).
  { rewrite length_app. cbn [length be32]. unfold to_size_t.
    rewrite Z.mod_small; [lia |].
    change (2 ^ 64) with (2 ^ 33 * 2 ^ 31). lia. }
  rewrite Hsize, Z.eqb_refl. cbn [negb].
  cbn [be32 app nth skipn length Nat.ltb Nat.leb].
  destruct (Byte.eqb msg_num expected); cbn [negb].
  - destruct (ParseFromString (c_string (SerializeAsString msg))).
    + reflexivity.
    + reflexivity.
  - reflexivity.
Qed.

(** X1. Round trip through [read_expected_msg_with_fd], for every tag: a
    frame built by [create_raw_msg] whose payload holds no zero byte is
    read back as the message that was framed, with the descriptors that
    came along. *)
Theorem read_expected_msg_with_fd_round_trip {T} `{MessageLite T}
  (msg_num : byte) (msg : T) socket rfds env w :
  1 + Z.of_nat (length (SerializeAsString msg)) < 2 ^ 31 ->
  Forall (fun b => b <> x00) (SerializeAsString msg) ->
  ParseFromString (SerializeAsString msg) = Some msg ->
  peer_recvmsg env (peer socket) = inr (create_raw_msg msg_num msg, rfds) ->
  read_expected_msg_with_fd (T := T) socket msg_num env w
  = (Ok (Some msg, rfds),
     {| w_result := w_result w;
        w_trace := w_trace w ++ [ev_recvmsg (peer socket)] |}).
Proof.
  intros Hlen Hclean Hparse Hrecv.
  rewrite (@read_expected_msg_with_fd_frame T H msg_num msg_num msg socket rfds
             env w Hlen Hrecv).
  rewrite (@Byte.byte_dec_lb msg_num msg_num eq_refl).
  rewrite (c_string_clean Hclean), Hparse. reflexivity.
Qed.

(** X2. The payload reaches the parser as a C string: when the payload of
    the frame is [head], a zero byte, and anything after, it is [head]
    alone that is parsed, and the outcome is whatever the parser makes of
    it. *)
Theorem read_expected_msg_with_fd_stops_at_zero {T} `{MessageLite T}
  (msg_num : byte) (msg : T) head tail socket rfds env w :
  1 + Z.of_nat (length (SerializeAsString msg)) < 2 ^ 31 ->
  SerializeAsString msg = head ++ x00 :: tail ->
  Forall (fun b => b <> x00) head ->
  peer_recvmsg env (peer socket) = inr (create_raw_msg msg_num msg, rfds) ->
  fst (read_expected_msg_with_fd (T := T) socket msg_num env w)
  = Ok (ParseFromString head, rfds).
Proof.
  intros Hlen Hsplit Hclean Hrecv.
  rewrite (@read_expected_msg_with_fd_frame T H msg_num msg_num msg socket rfds
             env w Hlen Hrecv).
  rewrite (@Byte.byte_dec_lb msg_num msg_num eq_refl).
  rewrite Hsplit, (c_string_cut tail Hclean).
  destruct (ParseFromString head); reflexivity.
Qed.

(** X3. What is received must be one frame and nothing more: when bytes
    follow the frame, the size test fails, the reply is refused whatever
    its tag and content, and the descriptors received are handed back. *)
Theorem read_expected_msg_with_fd_refuses_trailing_bytes {T} `{MessageLite T}
  (msg_num expected : byte) (msg : T) extra socket rfds env w :
  extra <> [] ->
  Z.of_nat (length (create_raw_msg msg_num msg ++ extra)) < 2 ^ 31 ->
  peer_recvmsg env (peer socket)
  = inr (create_raw_msg msg_num msg ++ extra, rfds) ->
  read_expected_msg_with_fd (T := T) socket expected env w
  = (Ok (None, rfds),
     {| w_result := w_result w;
        w_trace := w_trace w ++ [ev_recvmsg (peer socket);
                                 ev_cerr "Error: enexpected data size"] |}).
Proof.
  intros Hextra Hlen Hrecv.
  rewrite create_raw_msg_layout in Hrecv, Hlen.
  rewrite !length_app in Hlen. cbn [length be32] in Hlen.
  assert (Hx : (0 < length extra)%nat) by (destruct extra; [congruence | cbn; lia]).
  rewrite to_uint32_small in Hrecv by (change (2 ^ 32) with (2 * 2 ^ 31); lia).
  unfold read_expected_msg_with_fd. unfold bind at 1.
  rewrite recvmsg_run, Hrecv. rewrite <- app_assoc.
  rewrite load_be32_be32 by (change (2 ^ 32) with (2 * 2 ^ 31); lia).
  rewrite to_int_small by lia.
  destruct (Z.eqb_spec
              (Z.of_nat (length (be32 (1 + Z.of_nat (length (SerializeAsString msg)))
                                 ++ (msg_num :: SerializeAsString msg) ++ extra)))
              (to_size_t (4 + (1 + Z.of_nat (length (SerializeAsString msg))))))
    as [E | _].
  - exfalso. rewrite !length_app in E. cbn [length be32] in E.
    unfold to_size_t in E. rewrite Z.mod_small in E; [lia |].
    change (2 ^ 64) with (2 ^ 33 * 2 ^ 31). lia.
  - cbn [negb]. unfold bind, cerr, emit, ret. cbn.
    rewrite <- app_assoc. reflexivity.
Qed.

(** ** Reading from the stream *)

(** X4. A frame of length zero never yields a message: its empty packet
    compares as tag 0, so it is refused as a wrong tag when another tag is
    expected, and when tag 0 is expected [substr(1)] throws. *)
Theorem read_expected_msg_empty_packet {T} `{MessageLite T}
  (expected : byte) fd rest env w :
  unread fd = be32 0 ++ rest ->
  fst (read_expected_msg (T := T) fd expected env w)
  = if Z_of_byte expected =? 0
    then Throw (std_exception "basic_string::substr")
    else Ok (None, {| peer := peer fd; unread := rest |}).
Proof.
  intros Hu. unfold read_expected_msg. unfold bind at 1.
  rewrite (@read_full_run fd 4 env w (be32 0) rest Hu eq_refl).
  rewrite load_be32_exact by (cbn; lia).
  rewrite to_int_small by (cbn; lia).
  unfold bind at 1.
  rewrite (@read_full_run {| peer := peer fd; unread := rest |} 0 env _ [] rest
             eq_refl eq_refl).
  cbn [front_char peer].
  rewrite Z.eqb_sym.
  destruct (Z_of_byte expected =? 0); reflexivity.
Qed.

(** X5. Frames are read one after the other: from a stream that starts
    with two frames, two reads return the two messages in order and leave
    the stream right after the second frame. *)
Theorem read_expected_msg_twice {T1 T2} `{MessageLite T1} `{MessageLite T2}
  (n1 n2 : byte) (m1 : T1) (m2 : T2) fd rest env w :
  Z_of_byte n1 < 128 -> Z_of_byte n2 < 128 ->
  ParseFromString (SerializeAsString m1) = Some m1 ->
  ParseFromString (SerializeAsString m2) = Some m2 ->
  1 + Z.of_nat (length (SerializeAsString m1)) < 2 ^ 31 ->
  1 + Z.of_nat (length (SerializeAsString m2)) < 2 ^ 31 ->
  unread fd = create_raw_msg n1 m1 ++ create_raw_msg n2 m2 ++ rest ->
  fst (('(r1, fd1) <- read_expected_msg (T := T1) fd n1 ;;
        '(r2, fd2) <- read_expected_msg (T := T2) fd1 n2 ;;
        ret (r1, r2, fd2)) env w)
  = Ok (Some m1, Some m2, {| peer := peer fd; unread := rest |}).
Proof.
  intros Ht1 Ht2 Hp1 Hp2 Hl1 Hl2 Hu.
  unfold bind at 1.
  pose proof (@read_expected_msg_round_trip T1 H n1 m1 fd
                (create_raw_msg n2 m2 ++ rest) env w Ht1 Hp1 Hl1 Hu) as R1.
  destruct (read_expected_msg (T := T1) fd n1 env w) as [r w1].
  cbn [fst] in R1. subst r.
  unfold bind at 1.
  pose proof (@read_expected_msg_round_trip T2 H0 n2 m2
                {| peer := peer fd; unread := create_raw_msg n2 m2 ++ rest |}
                rest env w1 Ht2 Hp2 Hl2 eq_refl) as R2.
  destruct (read_expected_msg (T := T2) _ n2 env w1) as [r w2].
  cbn [fst] in R2. subst r. reflexivity.
Qed.

(** ** Resolving descriptors *)

Lemma marshal_args_nothing_to_do env l :
  filter carries_descriptor l = [] ->
  forall fd_cwd fds w,
    marshal_args l fd_cwd fds env w = (Ok (l, fd_cwd, fds), w).
Proof.
  induction l as [|arg rest IH]; intros Hl fd_cwd fds w; [reflexivity |].
  cbn [filter] in Hl.
  destruct (carries_descriptor arg) eqn:Ea; [discriminate |].
  cbn [marshal_args]. unfold bind at 1.
  assert (E : marshal_arg arg fd_cwd fds env w = (Ok (arg, fd_cwd, fds), w)).
  { destruct arg as [ | v | v | v | [ | fd | p] | s ];
      try reflexivity; discriminate Ea. }
  rewrite E. unfold bind at 1. rewrite (IH Hl). reflexivity.
Qed.

(** X6. An operation without a raw directory descriptor and without a
    socket argument goes through [marshal_fds] untouched: the same
    operation comes back, the transplant list is as it was, nothing is
    opened or read, and no failure of the file system can make it throw. *)
Theorem marshal_fds_nothing_to_do env op fds w :
  filter carries_descriptor (args op) = [] ->
  marshal_fds op fds env w = (Ok (op, fds, None), w).
Proof.
  intros Hl. unfold marshal_fds. unfold bind at 1.
  rewrite (@marshal_args_nothing_to_do env (args op) Hl). destruct op; reflexivity.
Qed.

Lemma marshal_arg_keeps_cwd env arg fd_cwd fds w arg' fd_cwd' fds' w' :
  marshal_arg arg fd_cwd fds env w = (Ok (arg', fd_cwd', fds'), w') ->
  is_cwd_arg arg = false ->
  fd_cwd' = fd_cwd.
Proof.
  intros Hrun Hc. unfold marshal_arg in Hrun.
  destruct arg as [ | v | v | v | [ | fd | p] | s ];
    try (inversion Hrun; reflexivity).
  cbn [is_cwd_arg] in Hc. rewrite Hc in Hrun.
  unfold bind, ask, raise_or_return, ret, throw in Hrun.
  destruct (read_symlink env _); [discriminate |].
  inversion Hrun; reflexivity.
Qed.

Lemma marshal_args_cwd_valid env l :
  forall fds w r w',
    marshal_args l None fds env w = (Ok r, w') ->
    existsb is_cwd_arg l = true ->
    0 <= openat_cwd env.
Proof.
  induction l as [|arg rest IH]; intros fds w r w' Hrun Hex; [discriminate |].
  cbn [marshal_args] in Hrun. unfold bind at 1 in Hrun.
  destruct (marshal_arg arg None fds env w)
    as [[[[arg1 fd_cwd1] fds1]|e|] w1] eqn:E1; try discriminate.
  unfold bind at 1 in Hrun.
  destruct (marshal_args rest fd_cwd1 fds1 env w1) as [[r2|e|] w2] eqn:E2;
    try discriminate.
  cbn [existsb] in Hex.
  destruct (is_cwd_arg arg) eqn:Ec.
  - clear IH E2 Hrun. unfold marshal_arg in E1.
    destruct arg as [ | v | v | v | [ | fd | p] | s ]; try discriminate Ec.
    cbn [is_cwd_arg] in Ec. rewrite Ec in E1.
    unfold bind at 1 in E1. unfold duplicate_cwd in E1.
    unfold bind at 1 in E1. cbn [emit] in E1. unfold bind at 1 in E1.
    cbn [ask] in E1.
    destruct (Z.ltb_spec (openat_cwd env) 0); [discriminate | assumption].
  - rewrite (@marshal_arg_keeps_cwd _ _ _ _ _ _ _ _ _ E1 Ec) in E2.
    eapply IH; eassumption.
Qed.

(** X7. A failed duplication of the working directory is never
    transplanted. If [marshal_fds] returns and some argument was
    [AT_FDCWD], the descriptor it queued for it is a valid one; and when
    the first argument is [AT_FDCWD] (as in every operation built for a
    path without directory) and the [openat] fails, [marshal_fds] throws
    right after the attempt. *)
Theorem marshal_fds_cwd_valid env op fds w :
  (forall r w',
      marshal_fds op fds env w = (Ok r, w') ->
      existsb is_cwd_arg (args op) = true ->
      0 <= openat_cwd env)
  /\ (forall rest,
        args op = dir_fd_arg (kFd AT_FDCWD) :: rest ->
        openat_cwd env < 0 ->
        marshal_fds op fds env w
        = (Throw (std_exception "Failed to duplicate AT_FDCWD"),
           {| w_result := w_result w;
              w_trace := w_trace w ++ [ev_openat_cwd] |})).
Proof.
  split.
  - intros r w' Hrun Hex. unfold marshal_fds in Hrun. unfold bind at 1 in Hrun.
    destruct (marshal_args (args op) None fds env w) as [[r1|e|] w1] eqn:E;
      try discriminate.
    eapply marshal_args_cwd_valid; eassumption.
  - intros rest Hargs Hneg. unfold marshal_fds. rewrite Hargs.
    cbn [marshal_args marshal_arg]. change (AT_FDCWD =? AT_FDCWD) with true.
    cbv iota. unfold duplicate_cwd, bind, emit, ask, throw.
    destruct (Z.ltb_spec (openat_cwd env) 0); [reflexivity | lia].
Qed.

(** ** The switch of [hook] *)

Lemma to_int_range z : int_range (to_int z).
Proof.
  unfold int_range, to_int.
  pose proof (Z.mod_pos_bound (z + 2 ^ 31) (2 ^ 32) ltac:(lia)). lia.
Qed.

Lemma small_int_range z : - 1000 <= z <= 1000 -> int_range z.
Proof. unfold int_range. change (2 ^ 31) with 2147483648. lia. Qed.

Lemma create_access_op_shape dir_fd path mode flags op env w r w' :
  create_access_op dir_fd path mode flags op env w = (Ok r, w') ->
  w' = w
  /\ (r = (false, op)
      \/ r = (true,
              {| syscall_num := syscall_num op;
                 args := args op ++ [dir_fd_arg (kFd dir_fd); string_arg path;
                                     int_arg mode; int_arg flags] |})).
Proof.
  intros Hrun.
  assert (Hop : add_args (int_arg flags)
                  (add_args (int_arg mode)
                     (add_args (string_arg path)
                        (add_args (dir_fd_arg (kFd dir_fd)) op)))
                = {| syscall_num := syscall_num op;
                     args := args op ++ [dir_fd_arg (kFd dir_fd); string_arg path;
                                         int_arg mode; int_arg flags] |}).
  { unfold add_args. cbn. rewrite <- !app_assoc. reflexivity. }
  unfold create_access_op in Hrun. unfold bind at 1 in Hrun.
  destruct (mode =? X_OK).
  - unfold bind at 1 in Hrun. unfold bind at 1 in Hrun. cbn [ask] in Hrun.
    destruct (status_permissions env path) as [e | p]; [discriminate |].
    cbn [raise_or_return ret] in Hrun.
    destruct (_ && _ && _); cbn [ret] in Hrun; inversion Hrun; subst.
    + split; [reflexivity | left; reflexivity].
    + split; [reflexivity | right; now rewrite Hop].
  - cbn [ret] in Hrun. inversion Hrun; subst.
    split; [reflexivity | right; now rewrite Hop].
Qed.

(** Closes the goal of [hook_switch_shape] once the operation is known. *)
Ltac shape_done :=
  cbn [create_open_op create_unlink_op create_socket_op create_bind_op
       add_args args syscall_num app filter carries_descriptor length];
  split; [reflexivity |]; split; [reflexivity |]; split; [| lia];
  repeat (apply Forall_cons;
          [cbn [int_sized Socket_fd socket_fd]; auto using to_int_range |]);
  apply Forall_nil.

(** What the switch builds: the operation keeps the number, every number in
    it fits an [int], and at most one argument carries a descriptor. No
    event is produced. *)
Lemma hook_switch_shape n a0 a1 a2 a3 env w should_hook op' w' :
  hook_switch n a0 a1 a2 a3 {| syscall_num := n; args := [] |} env w
  = (Ok (Some (should_hook, op')), w') ->
  w' = w
  /\ syscall_num op' = n
  /\ Forall int_sized (args op')
  /\ (length (filter carries_descriptor (args op')) <= 1)%nat.
Proof.
  intros Hrun. unfold hook_switch in Hrun.
  assert (Hcwd : int_range AT_FDCWD)
    by (apply small_int_range; unfold AT_FDCWD; lia).
  assert (H0 : int_range 0) by (apply small_int_range; lia).
  destruct (n =? SYS_open).
  { unfold bind, ask, ret in Hrun. inversion Hrun; subst. shape_done. }
  destruct (n =? SYS_openat).
  { unfold bind, ask, ret in Hrun. inversion Hrun; subst. shape_done. }
  destruct (n =? SYS_unlink).
  { unfold bind, ask, ret in Hrun. inversion Hrun; subst. shape_done. }
  destruct (n =? SYS_unlinkat).
  { unfold bind, ask, ret in Hrun. inversion Hrun; subst. shape_done. }
  destruct (n =? SYS_access).
  { unfold bind at 1 in Hrun. cbn [ask] in Hrun. unfold bind at 1 in Hrun.
    destruct (create_access_op _ _ _ _ _ env w) as [[r|e|] w2] eqn:E;
      try discriminate.
    cbn [ret] in Hrun. inversion Hrun; subst.
    destruct (@create_access_op_shape _ _ _ _ _ _ _ _ _ E) as (-> & [R | R]);
      inversion R; subst; shape_done. }
  destruct (n =? SYS_faccessat).
  { unfold bind at 1 in Hrun. cbn [ask] in Hrun. unfold bind at 1 in Hrun.
    destruct (create_access_op _ _ _ _ _ env w) as [[r|e|] w2] eqn:E;
      try discriminate.
    cbn [ret] in Hrun. inversion Hrun; subst.
    destruct (@create_access_op_shape _ _ _ _ _ _ _ _ _ E) as (-> & [R | R]);
      inversion R; subst; shape_done. }
  destruct (n =? SYS_socket).
  { unfold ret in Hrun. inversion Hrun; subst. shape_done. }
  destruct (n =? SYS_bind).
  { unfold bind, ask, ret in Hrun. inversion Hrun; subst. shape_done. }
  unfold bind, cerr, emit, ret in Hrun. discriminate.
Qed.


(** X9. Whatever the syscall, at most one descriptor is transplanted: the
    operation built by the switch of [hook], once through [marshal_fds],
    leaves a transplant list of at most one entry. *)
Theorem at_most_one_transplant n a0 a1 a2 a3 env w should_hook op w1 op1 fds1
  fd_cwd w2 :
  hook_switch n a0 a1 a2 a3 {| syscall_num := n; args := [] |} env w
  = (Ok (Some (should_hook, op)), w1) ->
  marshal_fds op [] env w1 = (Ok (op1, fds1, fd_cwd), w2) ->
  (length fds1 <= 1)%nat.
Proof.
  intros Hsw Hm.
  destruct (@hook_switch_shape _ _ _ _ _ _ _ _ _ _ Hsw) as (_ & _ & _ & Hone).
  unfold marshal_fds in Hm. unfold bind at 1 in Hm.
  destruct (marshal_args (args op) None [] env w1)
    as [[[[l1 c1] f1]|e|] w3] eqn:E; try discriminate.
  inversion Hm; subst.
  destruct (@marshal_args_spec _ _ _ _ _ _ _ _ _ E (or_introl eq_refl))
    as (_ & F & _).
  subst fds1. cbn [app]. unfold transplants. rewrite length_map. exact Hone.
Qed.

(** ** The access check *)

(** X10. [create_access_op] says "do not proceed" only for a pure execute
    check on a file without any execute bit, and then leaves the operation
    as it was. In every other case in which it returns, it returns true
    with the four arguments appended in order; for a pure execute check
    that means the file has an execute bit. It never produces an event. *)
Theorem create_access_op_verdict env dir_fd path mode flags op w should_hook
  op' w' :
  create_access_op dir_fd path mode flags op env w = (Ok (should_hook, op'), w') ->
  w' = w
  /\ (should_hook = false ->
      mode = X_OK /\ op' = op
      /\ exists p, status_permissions env path = inr p /\ not_executable p)
  /\ (should_hook = true ->
      op' = {| syscall_num := syscall_num op;
               args := args op ++ [dir_fd_arg (kFd dir_fd); string_arg path;
                                   int_arg mode; int_arg flags] |}
      /\ (mode = X_OK ->
          exists p, status_permissions env path = inr p /\ ~ not_executable p)).
Proof.
  intros Hrun.
  assert (Hop : add_args (int_arg flags)
                  (add_args (int_arg mode)
                     (add_args (string_arg path)
                        (add_args (dir_fd_arg (kFd dir_fd)) op)))
                = {| syscall_num := syscall_num op;
                     args := args op ++ [dir_fd_arg (kFd dir_fd); string_arg path;
                                         int_arg mode; int_arg flags] |}).
  { unfold add_args. cbn. rewrite <- !app_assoc. reflexivity. }
  unfold create_access_op in Hrun. unfold bind at 1 in Hrun.
  destruct (Z.eqb_spec mode X_OK) as [Hm | Hm].
  - unfold bind at 1 in Hrun. unfold bind at 1 in Hrun. cbn [ask] in Hrun.
    destruct (status_permissions env path) as [e | p] eqn:Est; [discriminate |].
    cbn [raise_or_return ret] in Hrun.
    unfold not_executable.
    destruct (Z.eqb_spec (Z.land p owner_exec) perms_none) as [Ho | Ho];
      destruct (Z.eqb_spec (Z.land p group_exec) perms_none) as [Hg | Hg];
      destruct (Z.eqb_spec (Z.land p others_exec) perms_none) as [Hx | Hx];
      cbn [andb ret] in Hrun; inversion Hrun; subst should_hook op' w'.
    all: split; [reflexivity |].
    all: split; [intros Hs; try discriminate Hs | intros Hs; try discriminate Hs].
    all: try (split; [exact Hm |]; split; [reflexivity |];
              exists p; split; [reflexivity | tauto]).
    all: split; [exact Hop |]; intros _; exists p; split; [reflexivity | tauto].
  - cbn [ret] in Hrun. inversion Hrun; subst should_hook op' w'.
    split; [reflexivity |]. split; [discriminate |].
    intros _. split; [exact Hop | intros Hx; contradiction].
Qed.

(** ** Traces *)

Lemma logs_quiet {A} (P : Event -> Prop) (m : M A) env :
  quiet P m env -> logs P m env.
Proof.
  intros Q w. destruct (Q w) as (evs & E & F).
  exists evs. rewrite E. split; [reflexivity | exact F].
Qed.

Lemma logs_ret {A} (P : Event -> Prop) (a : A) env : logs P (ret a) env.
Proof. apply logs_quiet, quiet_ret. Qed.

Lemma logs_set_result (P : Event -> Prop) v env : logs P (set_result v) env.
Proof. intros w. exists []. cbn. rewrite app_nil_r. split; [reflexivity | constructor]. Qed.

Lemma logs_bind_reach {A B} P (m : M A) (f : A -> M B) env :
  logs P m env ->
  (forall a w w', m env w = (Ok a, w') -> logs P (f a) env) ->
  logs P (bind m f) env.
Proof.
  intros Hm Hf w. unfold bind.
  destruct (Hm w) as (e1 & E1 & F1).
  destruct (m env w) as [[a|e|] w1] eqn:Em; cbn [snd] in E1.
  - destruct (Hf a _ _ Em w1) as (e2 & E2 & F2).
    exists (e1 ++ e2). rewrite E2, E1, app_assoc.
    split; [reflexivity | apply Forall_app; split; assumption].
  - exists e1. split; assumption.
  - exists e1. split; assumption.
Qed.

Lemma logs_bind {A B} P (m : M A) (f : A -> M B) env :
  logs P m env -> (forall a, logs P (f a) env) -> logs P (bind m f) env.
Proof. intros Hm Hf. apply logs_bind_reach; auto. Qed.

Lemma logs_weaken {A} (P Q : Event -> Prop) (m : M A) env :
  (forall ev, P ev -> Q ev) -> logs P m env -> logs Q m env.
Proof.
  intros HPQ Hm w. destruct (Hm w) as (evs & E & F).
  exists evs. split; [exact E | eapply Forall_impl; eauto].
Qed.

Lemma never_returns_bind {A B} (x : B) (m : M A) (f : A -> M B) env :
  (forall a, never_returns x (f a) env) -> never_returns x (bind m f) env.
Proof.
  intros Hf w. unfold bind.
  destruct (m env w) as [[a|e|] w1]; [apply Hf | discriminate | discriminate].
Qed.

Lemma never_returns_ret {A} (x y : A) env :
  x <> y -> never_returns x (ret y) env.
Proof. intros Hxy w. cbn. congruence. Qed.

Lemma read_full_peer fd n env w r fd' w' :
  read_full fd n env w = (Ok (r, fd'), w') -> peer fd' = peer fd.
Proof.
  unfold read_full, bind, emit, throw, ret.
  destruct (_ || _); [discriminate |].
  intros H. inversion H. reflexivity.
Qed.

(** The socket [read_expected_msg] hands back is the one it was given, read
    further. *)
Lemma read_expected_msg_peer {T} `{MessageLite T} fd expected env w m fd' w' :
  read_expected_msg (T := T) fd expected env w = (Ok (m, fd'), w') ->
  peer fd' = peer fd.
Proof.
  unfold read_expected_msg. unfold bind at 1.
  destruct (read_full fd 4 env w) as [[[buf fd1]|e|] w1] eqn:E1;
    try discriminate.
  apply read_full_peer in E1.
  destruct (load_be32 buf); [| discriminate].
  unfold bind at 1.
  destruct (read_full fd1 _ env w1) as [[[packet fd2]|e|] w2] eqn:E2;
    try discriminate.
  apply read_full_peer in E2.
  destruct (negb _).
  - unfold bind, cerr, emit, ret. intros H1. inversion H1; subst. congruence.
  - unfold bind at 1. destruct packet as [|b payload]; [discriminate |].
    cbn [substr1 ret].
    destruct (ParseFromString payload).
    + cbn [ret]. intros H1. inversion H1; subst. congruence.
    + unfold bind, cerr, emit, ret. intros H1. inversion H1; subst. congruence.
Qed.

(** [received] tells what [read_expected_msg] returns on a fresh socket in
    any world. *)
Lemma received_run {T} `{MessageLite T} env addr expected w :
  received (T := T) env addr expected
  = match fst (read_expected_msg (fresh_socket env addr) expected env w) with
    | Ok (msg, _) => Ok msg
    | Throw e => Throw e
    | Undefined => Undefined
    end.
Proof.
  unfold received.
  rewrite (oblivious_read_expected_msg (fresh_socket env addr) expected env _ w).
  reflexivity.
Qed.

Lemma oblivious_read_expected_msg_with_fd {T} `{MessageLite T} socket expected env :
  oblivious (read_expected_msg_with_fd (T := T) socket expected) env.
Proof.
  unfold read_expected_msg_with_fd.
  apply oblivious_bind.
  { unfold recvmsg. apply oblivious_bind; [apply oblivious_emit |]. intros _.
    apply oblivious_bind; [intros w w'; reflexivity |].
    intros [e | r]; [apply oblivious_throw | apply oblivious_ret]. }
  intros [data fds]. destruct (load_be32 data); [| apply oblivious_undefined].
  destruct (negb (_ =? _)).
  { apply oblivious_bind; [apply oblivious_emit | intros; apply oblivious_ret]. }
  destruct (negb (Byte.eqb _ _)).
  { apply oblivious_bind; [apply oblivious_emit | intros; apply oblivious_ret]. }
  destruct (_ <? _)%nat; [apply oblivious_undefined |].
  destruct (ParseFromString _).
  - apply oblivious_ret.
  - apply oblivious_bind; [apply oblivious_emit | intros; apply oblivious_ret].
Qed.

(** [read_expected_msg_with_fd] looks at nothing of the socket but its
    peer, and at nothing of the world. *)
Lemma answered_run {T} `{MessageLite T} env socket expected w :
  fst (read_expected_msg_with_fd (T := T) socket expected env w)
  = answered env (peer socket) expected.
Proof.
  unfold answered.
  rewrite (oblivious_read_expected_msg_with_fd
             (fresh_socket env (peer socket)) expected env _ w).
  destruct socket; reflexivity.
Qed.

Lemma quiet_read_expected_msg_events {T} `{MessageLite T}
  (P : Event -> Prop) fd expected env :
  (forall addr n, P (ev_read_full addr n)) ->
  (forall msg, P (ev_cerr msg)) ->
  quiet P (read_expected_msg (T := T) fd expected) env.
Proof.
  intros Hread Hcerr. unfold read_expected_msg.
  apply quiet_bind; [apply quiet_read_full; apply Hread |].
  intros [buf fd1]. destruct (load_be32 buf); [| apply quiet_undefined].
  apply quiet_bind; [apply quiet_read_full; apply Hread |].
  intros [packet fd2].
  destruct (negb _).
  - apply quiet_bind; [apply quiet_cerr; apply Hcerr | intros; apply quiet_ret].
  - apply quiet_bind; [apply quiet_substr1 |]. intros payload.
    destruct (ParseFromString payload).
    + apply quiet_ret.
    + apply quiet_bind; [apply quiet_cerr; apply Hcerr | intros; apply quiet_ret].
Qed.

Lemma quiet_get_credential_events {Challenge Credential : Type}
  (CREDENTIAL_REQUEST CREDENTIAL_RESPONSE : byte) (APPROVED : Z)
  {CredentialRequest_msg : MessageLite (CredentialRequest Challenge)}
  {CredentialResponse_msg : MessageLite (CredentialResponse Credential)}
  op (challenge : Challenge) env :
  quiet credential_event
    (get_credential CREDENTIAL_REQUEST CREDENTIAL_RESPONSE APPROVED op challenge)
    env.
Proof.
  unfold get_credential.
  apply quiet_bind; [apply quiet_user_runtime_dir |]. intros dir.
  apply quiet_bind; [apply quiet_connect; exact I |]. intros socket.
  apply quiet_bind; [apply quiet_write; exact I |]. intros _.
  apply quiet_bind.
  { apply quiet_read_expected_msg_events; intros; exact I. }
  intros [[response|] socket'].
  - destruct (negb _).
    + apply quiet_bind; [apply quiet_cerr; exact I | intros; apply quiet_ret].
    + apply quiet_ret.
  - apply quiet_bind; [apply quiet_cerr; exact I | intros; apply quiet_ret].
Qed.

Lemma quiet_hook_switch_events (P : Event -> Prop) n a0 a1 a2 a3 op env :
  (forall msg, P (ev_cerr msg)) ->
  quiet P (hook_switch n a0 a1 a2 a3 op) env.
Proof.
  intros Hcerr. unfold hook_switch.
  repeat match goal with
         | |- quiet _ (if ?c then _ else _) _ => destruct c
         end;
    repeat first
      [ apply quiet_ret | apply quiet_ask | apply quiet_create_access_op
      | apply quiet_cerr; apply Hcerr
      | apply quiet_bind; [ | intros ? ] ].
Qed.

Section ProtocolExtras.

Variables Challenge Credential : Type.
Variables CHALLENGE_REQUEST CHALLENGE_RESPONSE : byte.
Variables CREDENTIAL_REQUEST CREDENTIAL_RESPONSE : byte.
Variables ELEVATION_REQUEST ELEVATION_RESPONSE : byte.
Variable APPROVED : Z.
Context {ChallengeRequest_msg : MessageLite ChallengeRequest}.
Context {Challenge_msg : MessageLite Challenge}.
Context {CredentialRequest_msg : MessageLite (CredentialRequest Challenge)}.
Context {CredentialResponse_msg : MessageLite (CredentialResponse Credential)}.
Context {ElevationRequest_msg : MessageLite (ElevationRequest Credential)}.
Context {ElevationResponse_msg : MessageLite ElevationResponse}.

Local Abbreviation get_credential' :=
  (get_credential CREDENTIAL_REQUEST CREDENTIAL_RESPONSE APPROVED).
Local Abbreviation negotiate' :=
  (negotiate CHALLENGE_REQUEST CHALLENGE_RESPONSE CREDENTIAL_REQUEST
     CREDENTIAL_RESPONSE ELEVATION_REQUEST ELEVATION_RESPONSE APPROVED).
Local Abbreviation hook' :=
  (hook CHALLENGE_REQUEST CHALLENGE_RESPONSE CREDENTIAL_REQUEST
     CREDENTIAL_RESPONSE ELEVATION_REQUEST ELEVATION_RESPONSE APPROVED).
Local Abbreviation safe_hook' :=
  (safe_hook CHALLENGE_REQUEST CHALLENGE_RESPONSE CREDENTIAL_REQUEST
     CREDENTIAL_RESPONSE ELEVATION_REQUEST ELEVATION_RESPONSE APPROVED).
Local Abbreviation guardo_addr := (path_append "/tmp" GUARDO_SOCK_NAME).

(** *** What [safe_hook] returns *)

(** X11. [safe_hook] returns 1 exactly for the numbers outside its list of
    seven, and then it has done nothing at all. For the seven it returns 0
    however the negotiation ends, unless the run has no defined
    behaviour. *)
Theorem safe_hook_declines_exactly n a0 a1 a2 a3 a4 a5 env w :
  (fst (safe_hook' n a0 a1 a2 a3 a4 a5 env w) = Ok 1
   <-> ~ In n [SYS_open; SYS_openat; SYS_unlink; SYS_unlinkat; SYS_access;
               SYS_socket; SYS_bind])
  /\ (fst (safe_hook' n a0 a1 a2 a3 a4 a5 env w) = Ok 1 ->
      snd (safe_hook' n a0 a1 a2 a3 a4 a5 env w) = w)
  /\ (fst (safe_hook' n a0 a1 a2 a3 a4 a5 env w) = Ok 1
      \/ fst (safe_hook' n a0 a1 a2 a3 a4 a5 env w) = Ok 0
      \/ fst (safe_hook' n a0 a1 a2 a3 a4 a5 env w) = Undefined).
Proof.
  destruct (safe_hook_switch n) eqn:Hsw.
  - assert (Hzero : fst (safe_hook' n a0 a1 a2 a3 a4 a5 env w) = Ok 0
                    \/ fst (safe_hook' n a0 a1 a2 a3 a4 a5 env w) = Undefined).
    { rewrite (@safe_hook_unfold _ _ CHALLENGE_REQUEST CHALLENGE_RESPONSE
                 CREDENTIAL_REQUEST CREDENTIAL_RESPONSE ELEVATION_REQUEST
                 ELEVATION_RESPONSE APPROVED _ _ _ _ _ _
                 n a0 a1 a2 a3 a4 a5 env w Hsw).
      cbv zeta. destruct (negb _ && negb _); [left; reflexivity |].
      destruct (hook' n a0 a1 a2 a3 a4 a5 env _) as [[x|e|] w2];
        [left | left | right]; reflexivity. }
    assert (Hno : fst (safe_hook' n a0 a1 a2 a3 a4 a5 env w) <> Ok 1).
    { destruct Hzero as [-> | ->]; discriminate. }
    split; [| split; [intros H; contradiction | right; exact Hzero]].
    split; [intros H; contradiction |].
    intros Hn. exfalso. apply Hn. now apply safe_hook_switch_spec.
  - rewrite (@safe_hook_declines _ _ CHALLENGE_REQUEST CHALLENGE_RESPONSE
               CREDENTIAL_REQUEST CREDENTIAL_RESPONSE ELEVATION_REQUEST
               ELEVATION_RESPONSE APPROVED _ _ _ _ _ _
               n a0 a1 a2 a3 a4 a5 env w Hsw).
    split; [| split; [reflexivity | left; reflexivity]].
    split; [| reflexivity].
    intros _ Hin. apply safe_hook_switch_spec in Hin. congruence.
Qed.

(** *** The real syscall is made once *)

Lemma logs_negotiate op fds env : logs hook_event (negotiate' op fds) env.
Proof.
  unfold negotiate.
  apply logs_bind; [apply logs_quiet, quiet_marshal_fds; exact I |].
  intros [[op' fds'] fd_cwd].
  apply logs_bind; [apply logs_quiet, quiet_connect; exact I |]. intros socket.
  apply logs_bind; [apply logs_quiet, quiet_sendmsg; exact I |]. intros _.
  apply logs_bind.
  { apply logs_quiet. eapply quiet_weaken; [| apply quiet_read_expected_msg].
    intros [] Hev; cbn in *; tauto. }
  intros [[challenge|] socket'].
  2: { apply logs_bind; [apply logs_quiet, quiet_cerr; exact I |].
       intros; apply logs_ret. }
  apply logs_bind.
  { apply logs_quiet. eapply quiet_weaken; [| apply quiet_get_credential_events].
    intros [] Hev; cbn in *; tauto. }
  intros [credential|]; [| apply logs_ret].
  apply logs_bind; [apply logs_quiet, quiet_sendmsg; exact I |]. intros _.
  apply logs_bind.
  { apply logs_quiet. eapply quiet_weaken; [| apply quiet_read_expected_msg_with_fd].
    intros [] Hev; cbn in *; tauto. }
  intros [[response|] rfds]; [| apply logs_ret].
  destruct (is_result_fd response).
  - destruct rfds as [|fd0 rest].
    + apply logs_bind; [apply logs_quiet, quiet_cerr; exact I |].
      intros; apply logs_ret.
    + apply logs_bind; [apply logs_set_result | intros; apply logs_ret].
  - apply logs_bind; [apply logs_set_result | intros; apply logs_ret].
Qed.

Lemma logs_hook n a0 a1 a2 a3 a4 a5 env :
  logs hook_event (hook' n a0 a1 a2 a3 a4 a5) env.
Proof.
  unfold hook.
  apply logs_bind.
  { apply logs_quiet, quiet_hook_switch_events. intros; exact I. }
  intros [[[] op]|]; cbn [negb]; try apply logs_ret.
  apply logs_negotiate.
Qed.

(** X12. For a number that passes the switch of [safe_hook], the real
    syscall is the first thing the filter does, and it is made exactly
    once: nothing that follows in the trace is a syscall. The elevation
    path never re-issues the call. *)
Theorem real_syscall_made_once n a0 a1 a2 a3 a4 a5 env w :
  safe_hook_switch n = true ->
  exists evs,
    w_trace (snd (safe_hook' n a0 a1 a2 a3 a4 a5 env w))
    = w_trace w ++ ev_syscall_no_intercept n a0 a1 a2 a3 a4 a5 :: evs
    /\ Forall (fun ev => is_real_syscall ev = false) evs.
Proof.
  intros Hsw.
  rewrite (@safe_hook_unfold _ _ CHALLENGE_REQUEST CHALLENGE_RESPONSE
             CREDENTIAL_REQUEST CREDENTIAL_RESPONSE ELEVATION_REQUEST
             ELEVATION_RESPONSE APPROVED _ _ _ _ _ _
             n a0 a1 a2 a3 a4 a5 env w Hsw).
  cbv zeta.
  destruct (negb _ && negb _).
  { exists []. split; [reflexivity | constructor]. }
  destruct (logs_hook n a0 a1 a2 a3 a4 a5 env
              (after_real_syscall env n a0 a1 a2 a3 a4 a5 w)) as (evs & E & F).
  assert (F' : Forall (fun ev => is_real_syscall ev = false) evs).
  { eapply Forall_impl; [| exact F]. intros [] Hev; cbn in *; tauto. }
  destruct (hook' n a0 a1 a2 a3 a4 a5 env _) as [[x|e|] w2];
    cbn [snd] in E; cbn [snd w_trace after_real_syscall] in *.
  - exists evs. rewrite E, <- app_assoc. split; [reflexivity | exact F'].
  - exists (evs ++ [catch_event e]). rewrite E, <- !app_assoc.
    split; [reflexivity |].
    apply Forall_app. split; [exact F' |].
    constructor; [destruct e; reflexivity | constructor].
  - exists evs. rewrite E, <- app_assoc. split; [reflexivity | exact F'].
Qed.

(** *** The default case of [hook] *)

Lemma negotiate_known_exits op fds env :
  never_returns exit_unexpected_syscall (negotiate' op fds) env.
Proof.
  unfold negotiate.
  apply never_returns_bind. intros [[op' fds'] fd_cwd].
  apply never_returns_bind. intros socket.
  apply never_returns_bind. intros _.
  apply never_returns_bind. intros [[challenge|] socket'].
  2: { apply never_returns_bind. intros _. apply never_returns_ret. discriminate. }
  apply never_returns_bind. intros [credential|];
    [| apply never_returns_ret; discriminate].
  apply never_returns_bind. intros _.
  apply never_returns_bind. intros [[response|] rfds];
    [| apply never_returns_ret; discriminate].
  destruct (is_result_fd response); [destruct rfds |];
    apply never_returns_bind; intros _; apply never_returns_ret; discriminate.
Qed.

(** X13. The switch of [hook] covers every number that passes the switch
    of [safe_hook]: for such a number [hook] finds a case, so it never
    takes its [default] return (the "unexpected intercepted syscall"
    error), whatever the environment. *)
Theorem hook_default_unreachable n a0 a1 a2 a3 a4 a5 env w :
  safe_hook_switch n = true ->
  fst (hook_switch n a0 a1 a2 a3 {| syscall_num := n; args := [] |} env w)
  <> Ok None
  /\ fst (hook' n a0 a1 a2 a3 a4 a5 env w) <> Ok exit_unexpected_syscall.
Proof.
  intros Hsw.
  assert (Hcase : fst (hook_switch n a0 a1 a2 a3
                         {| syscall_num := n; args := [] |} env w) <> Ok None).
  { intros Hnone. apply hook_switch_default in Hnone.
    apply safe_hook_switch_spec in Hsw. apply Hnone.
    cbn [In] in *. tauto. }
  split; [exact Hcase |].
  unfold hook. unfold bind at 1.
  destruct (hook_switch n a0 a1 a2 a3 _ env w) as [[[[[] op]|]|e|] w1];
    cbn [negb fst] in *; try discriminate.
  - apply negotiate_known_exits.
  - congruence.
Qed.

(** *** The credential phase *)

(** [get_credential] once the agent is reached and the request written:
    what is left is the read of the response. *)
Lemma get_credential_run env dir op (challenge : Challenge) w :
  runtime_dir_of env = Some dir ->
  connect_error env (path_append dir AGENT_GUARD_SOCK_NAME) = None ->
  send_error env (path_append dir AGENT_GUARD_SOCK_NAME)
    (create_raw_msg CREDENTIAL_REQUEST
       {| credential_request_op := op;
          credential_request_challenge := challenge |}) = None ->
  exists w1,
    fst (get_credential' op challenge env w)
    = match fst (read_expected_msg
                   (fresh_socket env (path_append dir AGENT_GUARD_SOCK_NAME))
                   CREDENTIAL_RESPONSE env w1) with
      | Ok (Some response, _) =>
          if status response =? APPROVED
          then Ok (Some (credential response))
          else Ok None
      | Ok (None, _) => Ok None
      | Throw e => Throw e
      | Undefined => Undefined
      end.
Proof.
  intros Hdir Hconn Hsend.
  unfold get_credential. unfold bind at 1.
  rewrite user_runtime_dir_run, Hdir.
  unfold bind at 1. rewrite connect_run, Hconn.
  unfold bind at 1. rewrite write_run. cbn [peer fresh_socket].
  rewrite Hsend.
  unfold bind at 1.
  match goal with
  | |- context [read_expected_msg ?s _ env ?w1] =>
      exists w1;
      destruct (read_expected_msg s CREDENTIAL_RESPONSE env w1)
        as [[[[response|] s']|e|] w2]
  end; cbn [fst]; try reflexivity.
  destruct (status response =? APPROVED); reflexivity.
Qed.

(** X14. Once the agent is reached and the request written, the verdict of
    [get_credential] is the agent's first message: the credential of a
    response whose status is [APPROVED], false for any other status and
    for a message that is not a credential response, and the read's own
    failure otherwise. *)
Theorem get_credential_verdict env dir op (challenge : Challenge) w :
  runtime_dir_of env = Some dir ->
  connect_error env (path_append dir AGENT_GUARD_SOCK_NAME) = None ->
  send_error env (path_append dir AGENT_GUARD_SOCK_NAME)
    (create_raw_msg CREDENTIAL_REQUEST
       {| credential_request_op := op;
          credential_request_challenge := challenge |}) = None ->
  fst (get_credential' op challenge env w)
  = match received env (path_append dir AGENT_GUARD_SOCK_NAME)
            CREDENTIAL_RESPONSE with
    | Ok (Some response) =>
        if status response =? APPROVED
        then Ok (Some (credential response))
        else Ok None
    | Ok None => Ok None
    | Throw e => Throw e
    | Undefined => Undefined
    end.
Proof.
  intros Hdir Hconn Hsend.
  destruct (@get_credential_run env dir op challenge w Hdir Hconn Hsend)
    as (w1 & ->).
  rewrite (@received_run (CredentialResponse Credential) _ env
             (path_append dir AGENT_GUARD_SOCK_NAME) CREDENTIAL_RESPONSE w1).
  destruct (fst (read_expected_msg _ CREDENTIAL_RESPONSE env w1))
    as [[[response|] s']|e|]; reflexivity.
Qed.

(** *** A negotiation that succeeds *)

(** X15. When the operation resolves, no connection or send fails, the
    elevation daemon sends a challenge, the agent approves, and the
    daemon's reply is an elevation response (with a descriptor if it
    announces one), the negotiation ends at its elevated exit and the
    result cell holds the first descriptor received, or the numeric
    result of the response. *)
Theorem negotiate_succeeds env op fds w op1 fds1 fd_cwd w1 dir
  (challenge : Challenge) (approval : CredentialResponse Credential)
  (response : ElevationResponse) rfds :
  marshal_fds op fds env w = (Ok (op1, fds1, fd_cwd), w1) ->
  (forall addr, connect_error env addr = None) ->
  (forall addr data, send_error env addr data = None) ->
  received env guardo_addr CHALLENGE_RESPONSE = Ok (Some challenge) ->
  runtime_dir_of env = Some dir ->
  received env (path_append dir AGENT_GUARD_SOCK_NAME) CREDENTIAL_RESPONSE
  = Ok (Some approval) ->
  status approval = APPROVED ->
  answered env guardo_addr ELEVATION_RESPONSE = Ok (Some response, rfds) ->
  (is_result_fd response = true -> rfds <> []) ->
  exists w',
    negotiate' op fds env w = (Ok exit_result_set, w')
    /\ w_result w' = if is_result_fd response then hd 0 rfds
                     else result response.
Proof.
  intros Hm Hconn Hsend Hch Hdir Hcred Happ Hresp Hfd.
  unfold negotiate. unfold bind at 1. rewrite Hm.
  unfold bind at 1. rewrite connect_run, Hconn.
  unfold bind at 1. rewrite sendmsg_run, Hsend.
  unfold bind at 1.
  match goal with
  | |- context [read_expected_msg ?s CHALLENGE_RESPONSE env ?w3] =>
      pose proof (@received_run Challenge _ env guardo_addr CHALLENGE_RESPONSE w3) as R;
      pose proof (@read_expected_msg_peer Challenge _ s CHALLENGE_RESPONSE env w3) as Hp;
      destruct (read_expected_msg s CHALLENGE_RESPONSE env w3)
        as [[[c socket']|e|] w4]
  end; rewrite Hch in R; cbn [fst] in R; try discriminate.
  inversion R; subst c. clear R.
  specialize (Hp _ _ _ eq_refl). cbn [peer fresh_socket] in Hp.
  unfold bind at 1.
  destruct (@get_credential_run env dir op1 challenge w4 Hdir (Hconn _) (Hsend _ _))
    as (w4' & V).
  pose proof (@received_run (CredentialResponse Credential) _ env
                (path_append dir AGENT_GUARD_SOCK_NAME) CREDENTIAL_RESPONSE w4')
    as Rc.
  rewrite Hcred in Rc.
  destruct (fst (read_expected_msg _ CREDENTIAL_RESPONSE env w4'))
    as [[[a|] s'']|e|]; try discriminate Rc.
  inversion Rc; subst a. clear Rc.
  rewrite Happ, Z.eqb_refl in V.
  destruct (get_credential' op1 challenge env w4) as [g w5].
  cbn [fst] in V. subst g.
  unfold bind at 1. rewrite sendmsg_run, Hsend.
  unfold bind at 1.
  match goal with
  | |- context [read_expected_msg_with_fd socket' ELEVATION_RESPONSE env ?w6] =>
      pose proof (@answered_run ElevationResponse _ env socket' ELEVATION_RESPONSE w6) as A;
      destruct (read_expected_msg_with_fd socket' ELEVATION_RESPONSE env w6)
        as [a w7]
  end.
  cbn [fst] in A. rewrite Hp, Hresp in A. subst a.
  destruct (is_result_fd response).
  - destruct rfds as [|fd0 rest]; [exfalso; now apply Hfd |].
    eexists. split; reflexivity.
  - eexists. split; reflexivity.
Qed.

(** *** What is sent *)

(** What [marshal_fds] returns, in one statement. *)
Lemma marshal_fds_spec env op fds w op1 fds1 fd_cwd w1 :
  marshal_fds op fds env w = (Ok (op1, fds1, fd_cwd), w1) ->
  syscall_num op1 = syscall_num op
  /\ Forall2 (resolves env) (args op) (args op1)
  /\ forallb descriptor_free (args op1) = true
  /\ fds1 = fds ++ transplants env (args op).
Proof.
  intros Hrun. unfold marshal_fds in Hrun. unfold bind at 1 in Hrun.
  destruct (marshal_args (args op) None fds env w)
    as [[[[l1 c1] f1]|e|] w2] eqn:E; try discriminate.
  inversion Hrun; subst. cbn [syscall_num args].
  destruct (@marshal_args_spec _ _ _ _ _ _ _ _ _ E (or_introl eq_refl))
    as (R & F & _).
  repeat split; try assumption.
  eapply resolved_args_descriptor_free; exact R.
Qed.

Lemma connect_peer addr env w socket w' :
  connect addr env w = (Ok socket, w') -> peer socket = addr.
Proof.
  rewrite connect_run. destruct (connect_error env addr); [discriminate |].
  intros H. inversion H. reflexivity.
Qed.

(** X16. Descriptor numbers never travel inline. Whatever the daemons
    answer, every [sendmsg] of a negotiation goes to the elevation daemon
    and is either the challenge request, with no descriptor attached, or
    an elevation request whose operation is the resolved one (no raw
    directory descriptor, no socket number left in it) with exactly the
    descriptors taken out of the operation attached, in order. *)
Theorem negotiation_sends_resolved_operation op fds env w :
  exists evs,
    w_trace (snd (negotiate' op fds env w)) = w_trace w ++ evs
    /\ Forall (negotiation_send (Credential := Credential)
                 CHALLENGE_REQUEST ELEVATION_REQUEST env op fds) evs.
Proof.
  revert w.
  change (logs (negotiation_send (Credential := Credential)
                  CHALLENGE_REQUEST ELEVATION_REQUEST env op fds)
            (negotiate' op fds) env).
  unfold negotiate.
  apply logs_bind_reach; [apply logs_quiet, quiet_marshal_fds; exact I |].
  intros [[op1 fds1] fd_cwd] w w1 Hm.
  apply marshal_fds_spec in Hm. destruct Hm as (Hn & Hres & Hfree & Hfds).
  apply logs_bind_reach; [apply logs_quiet, quiet_connect; exact I |].
  intros socket w2 w3 Hc. apply connect_peer in Hc.
  apply logs_bind.
  { apply logs_quiet, quiet_sendmsg. unfold negotiation_send.
    split; [exact Hc | left; split; reflexivity]. }
  intros _.
  apply logs_bind_reach.
  { apply logs_quiet, quiet_read_expected_msg_events; intros; exact I. }
  intros [[challenge|] socket'] w4 w5 Hr.
  2: { apply logs_bind; [apply logs_quiet, quiet_cerr; exact I |].
       intros; apply logs_ret. }
  apply read_expected_msg_peer in Hr.
  apply logs_bind.
  { apply logs_quiet. eapply quiet_weaken; [| apply quiet_get_credential_events].
    intros [] Hev; cbn in *; tauto. }
  intros [credential|]; [| apply logs_ret].
  apply logs_bind.
  { apply logs_quiet, quiet_sendmsg. unfold negotiation_send.
    split; [rewrite Hr; exact Hc |].
    right. exists op1, credential. repeat split; assumption. }
  intros _.
  apply logs_bind.
  { apply logs_quiet. eapply quiet_weaken; [| apply quiet_read_expected_msg_with_fd].
    intros [] Hev; cbn in *; tauto. }
  intros [[response|] rfds]; [| apply logs_ret].
  destruct (is_result_fd response).
  - destruct rfds as [|fd0 rest].
    + apply logs_bind; [apply logs_quiet, quiet_cerr; exact I |].
      intros; apply logs_ret.
    + apply logs_bind; [apply logs_set_result | intros; apply logs_ret].
  - apply logs_bind; [apply logs_set_result | intros; apply logs_ret].
Qed.



Lemma quiet_get_credential_write op (challenge : Challenge) env :
  quiet (fun ev =>
           match ev with
           | ev_write addr data =>
               exists dir,
                 runtime_dir_of env = Some dir
                 /\ addr = path_append dir AGENT_GUARD_SOCK_NAME
                 /\ data = create_raw_msg CREDENTIAL_REQUEST
                             {| credential_request_op := op;
                                credential_request_challenge := challenge |}
           | ev_sendmsg _ _ _ => False
           | _ => True
           end)
    (get_credential' op challenge) env.
Proof.
  unfold get_credential.
  apply quiet_bind_reach; [apply quiet_user_runtime_dir |].
  intros dir w w' Hd. rewrite user_runtime_dir_run in Hd.
  destruct (runtime_dir_of env) as [d|] eqn:Ed; [| discriminate].
  inversion Hd; subst d. clear Hd.
  apply quiet_bind_reach; [apply quiet_connect; exact I |].
  intros socket w2 w3 Hc. apply connect_peer in Hc.
  apply quiet_bind.
  { apply quiet_write. exists dir. repeat split. exact Hc. }
  intros _.
  apply quiet_bind.
  { apply quiet_read_expected_msg_events; intros; exact I. }
  intros [[response|] socket'].
  - destruct (negb _).
    + apply quiet_bind; [apply quiet_cerr; exact I | intros; apply quiet_ret].
    + apply quiet_ret.
  - apply quiet_bind; [apply quiet_cerr; exact I | intros; apply quiet_ret].
Qed.

(** X17. The credential is asked for this operation and this challenge.
    Every [write] of a negotiation goes to the agent's socket in the
    runtime directory and is the credential request made of the resolved
    operation and of the challenge the elevation daemon has just sent. *)
Theorem negotiation_binds_credential_request op fds env w :
  exists evs,
    w_trace (snd (negotiate' op fds env w)) = w_trace w ++ evs
    /\ Forall (negotiation_write (Challenge := Challenge)
                 CHALLENGE_RESPONSE CREDENTIAL_REQUEST env op) evs.
Proof.
  revert w.
  change (logs (negotiation_write (Challenge := Challenge)
                  CHALLENGE_RESPONSE CREDENTIAL_REQUEST env op)
            (negotiate' op fds) env).
  unfold negotiate.
  apply logs_bind_reach; [apply logs_quiet, quiet_marshal_fds; exact I |].
  intros [[op1 fds1] fd_cwd] w w1 Hm.
  apply marshal_fds_spec in Hm. destruct Hm as (Hn & Hres & Hfree & Hfds).
  apply logs_bind_reach; [apply logs_quiet, quiet_connect; exact I |].
  intros socket w2 w3 Hc.
  assert (Hs : socket = fresh_socket env guardo_addr).
  { rewrite connect_run in Hc.
    destruct (connect_error env _); inversion Hc; reflexivity. }
  subst socket. clear Hc.
  apply logs_bind; [apply logs_quiet, quiet_sendmsg; exact I |].
  intros _.
  apply logs_bind_reach.
  { apply logs_quiet, quiet_read_expected_msg_events; intros; exact I. }
  intros [[challenge|] socket'] w4 w5 Hr.
  2: { apply logs_bind; [apply logs_quiet, quiet_cerr; exact I |].
       intros; apply logs_ret. }
  assert (Hrec : received env guardo_addr CHALLENGE_RESPONSE = Ok (Some challenge)).
  { rewrite (@received_run Challenge _ env guardo_addr CHALLENGE_RESPONSE w4), Hr.
    reflexivity. }
  apply logs_bind.
  { apply logs_quiet. eapply quiet_weaken; [| apply quiet_get_credential_write].
    intros [] Hev; cbn in *; try exact I.
    destruct Hev as (dir & Hd & Ha & Hdata).
    exists dir, op1, challenge. repeat split; assumption. }
  intros [credential|]; [| apply logs_ret].
  apply logs_bind; [apply logs_quiet, quiet_sendmsg; exact I |].
  intros _.
  apply logs_bind.
  { apply logs_quiet. eapply quiet_weaken; [| apply quiet_read_expected_msg_with_fd].
    intros [] Hev; cbn in *; tauto. }
  intros [[response|] rfds]; [| apply logs_ret].
  destruct (is_result_fd response).
  - destruct rfds as [|fd0 rest].
    + apply logs_bind; [apply logs_quiet, quiet_cerr; exact I |].
      intros; apply logs_ret.
    + apply logs_bind; [apply logs_set_result | intros; apply logs_ret].
  - apply logs_bind; [apply logs_set_result | intros; apply logs_ret].
Qed.



End ProtocolExtras.

(** * Instances of the further properties *)

Lemma read_expected_msg_with_fd_round_trip_witness :
  @read_expected_msg_with_fd ElevationResponse Sample.ElevationResponse_msg
    Replies.guardo Sample.ELEVATION_RESPONSE Replies.granted Sample.world0
  = (Ok (Some Sample.descriptor_granted, [9]),
     {| w_result := 0; w_trace := [ev_recvmsg Sample.guardo_addr] |}).
Proof.
  apply (@read_expected_msg_with_fd_round_trip
           ElevationResponse Sample.ElevationResponse_msg
           Sample.ELEVATION_RESPONSE Sample.descriptor_granted
           Replies.guardo [9] Replies.granted Sample.world0).
  - vm_compute. reflexivity.
  - repeat constructor; discriminate.
  - reflexivity.
  - reflexivity.
Defined.

Lemma read_expected_msg_with_fd_stops_at_zero_witness :
  fst (@read_expected_msg_with_fd ElevationResponse Sample.ElevationResponse_msg
         Replies.guardo Sample.ELEVATION_RESPONSE
         (Replies.answering
            (inr (@create_raw_msg _ Sample.ElevationResponse_msg
                    Sample.ELEVATION_RESPONSE
                    {| is_result_fd := true; result := 0 |}, [9]))
            Replies.granted)
         Sample.world0)
  = Ok (@ParseFromString ElevationResponse Sample.ElevationResponse_msg [x01],
        [9]).
Proof.
  apply (@read_expected_msg_with_fd_stops_at_zero
           ElevationResponse Sample.ElevationResponse_msg
           Sample.ELEVATION_RESPONSE {| is_result_fd := true; result := 0 |}
           [x01] [] Replies.guardo [9]).
  - vm_compute. reflexivity.
  - reflexivity.
  - repeat constructor; discriminate.
  - reflexivity.
Defined.

Lemma read_expected_msg_with_fd_refuses_trailing_bytes_witness :
  @read_expected_msg_with_fd ElevationResponse Sample.ElevationResponse_msg
    Replies.guardo Sample.ELEVATION_RESPONSE
    (Replies.answering
       (inr (@create_raw_msg _ Sample.ElevationResponse_msg
               Sample.ELEVATION_RESPONSE Sample.descriptor_granted ++ [x2a],
             [9]))
       Replies.granted)
    Sample.world0
  = (Ok (None, [9]),
     {| w_result := 0;
        w_trace := [ev_recvmsg Sample.guardo_addr;
                    ev_cerr "Error: enexpected data size"] |}).
Proof.
  apply (@read_expected_msg_with_fd_refuses_trailing_bytes
           ElevationResponse Sample.ElevationResponse_msg
           Sample.ELEVATION_RESPONSE Sample.ELEVATION_RESPONSE
           Sample.descriptor_granted [x2a] Replies.guardo [9]).
  - discriminate.
  - vm_compute. reflexivity.
  - reflexivity.
Defined.

Lemma read_expected_msg_empty_packet_witness :
  fst (@read_expected_msg Sample.Challenge Sample.Challenge_msg
         {| peer := Sample.guardo_addr; unread := be32 0 ++ [x2a] |}
         Sample.CHALLENGE_RESPONSE Replies.granted Sample.world0)
  = Ok (None, {| peer := Sample.guardo_addr; unread := [x2a] |}).
Proof.
  apply (@read_expected_msg_empty_packet Sample.Challenge Sample.Challenge_msg
           Sample.CHALLENGE_RESPONSE
           {| peer := Sample.guardo_addr; unread := be32 0 ++ [x2a] |} [x2a]
           Replies.granted Sample.world0).
  reflexivity.
Defined.

Lemma read_expected_msg_twice_witness :
  fst (('(r1, fd1) <- @read_expected_msg Sample.Challenge Sample.Challenge_msg
                        {| peer := Sample.guardo_addr;
                           unread := [x00; x00; x00; x02; x02; x2a;
                                      x00; x00; x00; x03; x02; x2b; x2c;
                                      x07] |}
                        Sample.CHALLENGE_RESPONSE ;;
        '(r2, fd2) <- @read_expected_msg Sample.Challenge Sample.Challenge_msg
                        fd1 Sample.CHALLENGE_RESPONSE ;;
        ret (r1, r2, fd2)) Replies.granted Sample.world0)
  = Ok (Some [x2a], Some [x2b; x2c],
        {| peer := Sample.guardo_addr; unread := [x07] |}).
Proof.
  apply (@read_expected_msg_twice
           Sample.Challenge Sample.Challenge Sample.Challenge_msg
           Sample.Challenge_msg Sample.CHALLENGE_RESPONSE Sample.CHALLENGE_RESPONSE
           [x2a] [x2b; x2c]
           {| peer := Sample.guardo_addr;
              unread := [x00; x00; x00; x02; x02; x2a;
                         x00; x00; x00; x03; x02; x2b; x2c; x07] |}
           [x07] Replies.granted Sample.world0).
  - vm_compute. reflexivity.
  - vm_compute. reflexivity.
  - reflexivity.
  - reflexivity.
  - vm_compute. reflexivity.
  - vm_compute. reflexivity.
  - reflexivity.
Defined.

Lemma marshal_fds_nothing_to_do_witness :
  marshal_fds
    (create_socket_op 1 1 0 {| syscall_num := SYS_socket; args := [] |})
    [] (Sample.unreachable other_exception Replies.granted) Sample.world0
  = (Ok (create_socket_op 1 1 0 {| syscall_num := SYS_socket; args := [] |},
         [], None),
     Sample.world0).
Proof.
  apply (@marshal_fds_nothing_to_do
           (Sample.unreachable other_exception Replies.granted)
           (create_socket_op 1 1 0 {| syscall_num := SYS_socket; args := [] |})
           [] Sample.world0).
  reflexivity.
Defined.

Lemma marshal_fds_cwd_valid_witness : 0 <= openat_cwd Replies.granted.
Proof.
  apply (proj1 (@marshal_fds_cwd_valid Replies.granted
                  (create_unlink_op AT_FDCWD "secret" 0
                     {| syscall_num := SYS_unlink; args := [] |})
                  [] Sample.world0)
           ({| syscall_num := SYS_unlink;
               args := [dir_fd_arg (kPath "/home/user"); string_arg "secret";
                        int_arg 0] |}, [7], Some 7)
           {| w_result := 0; w_trace := [ev_openat_cwd] |}).
  - reflexivity.
  - reflexivity.
Defined.


Lemma at_most_one_transplant_witness : (length [5] <= 1)%nat.
Proof.
  apply (@at_most_one_transplant SYS_bind 5 1000 16 0
           Replies.granted Sample.world0 true
           {| syscall_num := SYS_bind;
              args := [socket_arg {| socket_fd := Some 5 |}; bytes_arg []] |}
           Sample.world0
           {| syscall_num := SYS_bind;
              args := [socket_arg {| socket_fd := None |}; bytes_arg []] |}
           [5] None Sample.world0).
  - reflexivity.
  - reflexivity.
Defined.

Lemma create_access_op_verdict_witness :
  X_OK = X_OK
  /\ {| syscall_num := SYS_access; args := [] |}
     = {| syscall_num := SYS_access; args := [] |}
  /\ exists p, status_permissions Replies.granted "secret" = inr p
               /\ not_executable p.
Proof.
  apply (proj1 (proj2
           (@create_access_op_verdict Replies.granted AT_FDCWD "secret" X_OK 0
              {| syscall_num := SYS_access; args := [] |} Sample.world0
              false {| syscall_num := SYS_access; args := [] |} Sample.world0
              eq_refl))).
  reflexivity.
Defined.

Lemma safe_hook_declines_exactly_witness :
  fst (Sample.run_safe_hook Replies.granted 0 3 1000 16 0 0 0 Sample.world0)
  = Ok 1.
Proof.
  apply (proj2 (proj1
           (@safe_hook_declines_exactly Sample.Challenge Sample.Credential
              Sample.CHALLENGE_REQUEST Sample.CHALLENGE_RESPONSE
              Sample.CREDENTIAL_REQUEST Sample.CREDENTIAL_RESPONSE
              Sample.ELEVATION_REQUEST Sample.ELEVATION_RESPONSE Sample.APPROVED
              Sample.ChallengeRequest_msg Sample.Challenge_msg
              Sample.CredentialRequest_msg Sample.CredentialResponse_msg
              Sample.ElevationRequest_msg Sample.ElevationResponse_msg
              0 3 1000 16 0 0 0 Replies.granted Sample.world0))).
  cbn [In]. unfold SYS_open, SYS_openat, SYS_unlink, SYS_unlinkat, SYS_access,
    SYS_socket, SYS_bind.
  intros H. repeat destruct H as [H | H]; try discriminate H; exact H.
Defined.

Lemma real_syscall_made_once_witness :
  exists evs,
    w_trace (snd (Sample.run_safe_hook Replies.granted
                    SYS_openat AT_FDCWD 1000 0 0 0 0 Sample.world0))
    = w_trace Sample.world0
      ++ ev_syscall_no_intercept SYS_openat AT_FDCWD 1000 0 0 0 0 :: evs
    /\ Forall (fun ev => is_real_syscall ev = false) evs.
Proof.
  apply (@real_syscall_made_once Sample.Challenge Sample.Credential
           Sample.CHALLENGE_REQUEST Sample.CHALLENGE_RESPONSE
           Sample.CREDENTIAL_REQUEST Sample.CREDENTIAL_RESPONSE
           Sample.ELEVATION_REQUEST Sample.ELEVATION_RESPONSE Sample.APPROVED
           Sample.ChallengeRequest_msg Sample.Challenge_msg
           Sample.CredentialRequest_msg Sample.CredentialResponse_msg
           Sample.ElevationRequest_msg Sample.ElevationResponse_msg
           SYS_openat AT_FDCWD 1000 0 0 0 0 Replies.granted Sample.world0).
  reflexivity.
Defined.

Lemma hook_default_unreachable_witness :
  fst (Sample.run_hook Replies.granted SYS_bind 5 1000 16 0 0 0 Sample.world0)
  <> Ok exit_unexpected_syscall.
Proof.
  apply (proj2
           (@hook_default_unreachable Sample.Challenge Sample.Credential
              Sample.CHALLENGE_REQUEST Sample.CHALLENGE_RESPONSE
              Sample.CREDENTIAL_REQUEST Sample.CREDENTIAL_RESPONSE
              Sample.ELEVATION_REQUEST Sample.ELEVATION_RESPONSE Sample.APPROVED
              Sample.ChallengeRequest_msg Sample.Challenge_msg
              Sample.CredentialRequest_msg Sample.CredentialResponse_msg
              Sample.ElevationRequest_msg Sample.ElevationResponse_msg
              SYS_bind 5 1000 16 0 0 0 Replies.granted Sample.world0
              eq_refl)).
Defined.

Lemma get_credential_verdict_witness :
  fst (@get_credential Sample.Challenge Sample.Credential
         Sample.CREDENTIAL_REQUEST Sample.CREDENTIAL_RESPONSE Sample.APPROVED
         Sample.CredentialRequest_msg Sample.CredentialResponse_msg
         {| syscall_num := SYS_socket; args := [] |} [x2a; x2b]
         Replies.granted Sample.world0)
  = Ok (Some [x63]).
Proof.
  apply (@get_credential_verdict Sample.Challenge Sample.Credential
           Sample.CREDENTIAL_REQUEST Sample.CREDENTIAL_RESPONSE Sample.APPROVED
           Sample.CredentialRequest_msg Sample.CredentialResponse_msg
           Replies.granted "/run/user/1000"
           {| syscall_num := SYS_socket; args := [] |} [x2a; x2b] Sample.world0).
  - reflexivity.
  - reflexivity.
  - reflexivity.
Defined.

Lemma negotiate_succeeds_witness :
  exists w',
    @negotiate Sample.Challenge Sample.Credential
      Sample.CHALLENGE_REQUEST Sample.CHALLENGE_RESPONSE
      Sample.CREDENTIAL_REQUEST Sample.CREDENTIAL_RESPONSE
      Sample.ELEVATION_REQUEST Sample.ELEVATION_RESPONSE Sample.APPROVED
      Sample.ChallengeRequest_msg Sample.Challenge_msg
      Sample.CredentialRequest_msg Sample.CredentialResponse_msg
      Sample.ElevationRequest_msg Sample.ElevationResponse_msg
      (create_open_op AT_FDCWD "secret" 0 0
         {| syscall_num := SYS_open; args := [] |})
      [] Replies.granted Sample.world0
    = (Ok exit_result_set, w')
    /\ w_result w' = 9.
Proof.
  apply (@negotiate_succeeds Sample.Challenge Sample.Credential
           Sample.CHALLENGE_REQUEST Sample.CHALLENGE_RESPONSE
           Sample.CREDENTIAL_REQUEST Sample.CREDENTIAL_RESPONSE
           Sample.ELEVATION_REQUEST Sample.ELEVATION_RESPONSE Sample.APPROVED
           Sample.ChallengeRequest_msg Sample.Challenge_msg
           Sample.CredentialRequest_msg Sample.CredentialResponse_msg
           Sample.ElevationRequest_msg Sample.ElevationResponse_msg
           Replies.granted
           (create_open_op AT_FDCWD "secret" 0 0
              {| syscall_num := SYS_open; args := [] |})
           [] Sample.world0
           {| syscall_num := SYS_open;
              args := [dir_fd_arg (kPath "/home/user"); string_arg "secret";
                       int_arg 0; int_arg 0] |}
           [7] (Some 7) {| w_result := 0; w_trace := [ev_openat_cwd] |}
           "/run/user/1000" [x2a; x2b]
           {| status := Sample.APPROVED; credential := [x63] |}
           Sample.descriptor_granted [9]).
  - reflexivity.
  - intros addr. reflexivity.
  - intros addr data. reflexivity.
  - reflexivity.
  - reflexivity.
  - reflexivity.
  - reflexivity.
  - reflexivity.
  - intros _. discriminate.
Defined.

Lemma negotiate_elevated_witness :
  exists (response : ElevationResponse) (rfds : list Z),
    (is_result_fd response = true -> rfds <> [])
    /\ 9 = (if is_result_fd response then hd 0 rfds else result response).
Proof.
  destruct (@negotiate_elevated Sample.Challenge Sample.Credential
              Sample.CHALLENGE_REQUEST Sample.CHALLENGE_RESPONSE
              Sample.CREDENTIAL_REQUEST Sample.CREDENTIAL_RESPONSE
              Sample.ELEVATION_REQUEST Sample.ELEVATION_RESPONSE Sample.APPROVED
              Sample.ChallengeRequest_msg Sample.Challenge_msg
              Sample.CredentialRequest_msg Sample.CredentialResponse_msg
              Sample.ElevationRequest_msg Sample.ElevationResponse_msg
              (create_open_op AT_FDCWD "secret" 0 0
                 {| syscall_num := SYS_open; args := [] |})
              [] Replies.granted Sample.world0
              {| w_result := 9;
                 w_trace :=
                   [ev_openat_cwd;
                    ev_connect "/tmp/.guardo-sock";
                    ev_sendmsg "/tmp/.guardo-sock" [x00; x00; x00; x01; x01] [];
                    ev_read_full "/tmp/.guardo-sock" 4;
                    ev_read_full "/tmp/.guardo-sock" 3;
                    ev_connect "/run/user/1000/.agent-guard-sock";
                    ev_write "/run/user/1000/.agent-guard-sock"
                      [x00; x00; x00; x04; x05; x02; x2a; x2b];
                    ev_read_full "/run/user/1000/.agent-guard-sock" 4;
                    ev_read_full "/run/user/1000/.agent-guard-sock" 3;
                    ev_sendmsg "/tmp/.guardo-sock"
                      [x00; x00; x00; x03; x03; x02; x63] [7];
                    ev_recvmsg "/tmp/.guardo-sock"] |}
              eq_refl)
    as (op1 & fds1 & fd_cwd & w1 & socket & w2 & w3 & challenge & socket'
        & w4 & credential & w5 & w6 & response & rfds & w7
        & _ & _ & _ & _ & _ & _ & _ & Hfd & Hw).
  exists response, rfds. split; [exact Hfd |].
  inversion Hw. reflexivity.
Defined.
